(** * example_extension.c: the [compute_intensive] extension function

    A shallow embedding of [src/example_extension.c].  The C function

    <<
      int n;
      if (!PyArg_ParseTuple(args, "i", &n)) return NULL;
      double result = 0.0;
      for (int i = 0; i < n; i++)
        for (int j = 0; j < n; j++)
          result += sin(i) * cos(j);
      return PyFloat_FromDouble(result);
    >>

    is modelled in three layers:
    - [Double]: IEEE-754 binary64 values and operations, as the executable
      specification [SpecFloat] of the Standard Library (precision 53,
      [emax = 1024], round to nearest, ties to even), every operation
      rounded on its own (no fused multiply-add, no extended precision);
    - [CInt]: the C type [int] as a 32-bit two's complement range over [Z],
      with the increment [i++] undefined at [INT_MAX];
    - the extension itself: the two nested [for] loops as a transition
      system over the local variables, one transition per evaluation of a
      loop test, and on top of it the Python-facing wrapper.

    The libm functions [sin] and [cos] and CPython's [PyArg_ParseTuple] are
    external to the repository: they are parameters of the development.
    What a theorem needs of them is stated as a hypothesis: the integer the
    parser stores, [sin(0) = 0] and [cos(0) = 1], values of magnitude at
    most 1, accuracy against the exact sine and cosine, correct rounding.
    The ways a call fails are those of the parser: they are stated for
    [parse_single_int], the format unit ["i"] on the Python values modelled
    here.

    The definitions come first; the proofs follow: rounding to nearest
    even in [SpecFloat], executions of the loop nest, the contract of the
    function, and the properties that depend on libm. *)

From Stdlib Require Import ZArith List Bool Lia QArith Qpower Qabs Qround Lqa.
From Stdlib Require Import Reals Qreals.
From Stdlib Require Lra.
From Stdlib Require Import SpecFloat.
Import ListNotations.

Local Open Scope Z_scope.

(* ------------------------------------------------------------------ *)
(** ** C [double]                                                      *)
(* ------------------------------------------------------------------ *)

Module Double.

Definition prec : Z := 53.
Definition emax : Z := 1024.

(** A [double] is a binary64 datum: signed zero, signed infinity, NaN, or
    [(-1)^s * m * 2^e]. *)
Definition double : Type := spec_float.

(** The literal [0.0]. *)
Definition zero : double := S754_zero false.

(** The literal [1.0], i.e. [2^52 * 2^-52]. *)
Definition one : double := S754_finite false 4503599627370496 (-52).

(** [x + y] and [x * y] on doubles. *)
Definition add (x y : double) : double := SFadd prec emax x y.
Definition mul (x y : double) : double := SFmul prec emax x y.

(** The implicit conversion of an [int] to [double] at a call such as
    [sin(i)]: the integer is rounded to the format (exactly, for every
    32-bit integer). *)
Definition of_int (z : Z) : double := binary_normalize prec emax z 0 false.

(** Neither an infinity nor a NaN. *)
Definition is_finite (x : double) : bool :=
  match x with
  | S754_zero _ | S754_finite _ _ _ => true
  | S754_infinity _ | S754_nan => false
  end.

(** The dyadic rational [m * 2^e]. *)
Definition dy (m e : Z) : Q := (inject_Z m * 2 ^ e)%Q.

(** The rational number a finite double stands for ([0] for the others). *)
Definition F2Q (x : double) : Q :=
  match x with
  | S754_finite s m e => dy (cond_Zopp s (Zpos m)) e
  | _ => 0%Q
  end.

(** The real number a finite double stands for. *)
Definition F2R (x : double) : R := Q2R (F2Q x).

(** A finite double of magnitude at most [K]. *)
Definition bounded_by (K : Z) (x : double) : Prop :=
  is_finite x = true /\ (inject_Z (- K) <= F2Q x <= inject_Z K)%Q.

(** The comparison [x < y] of C, false as soon as one side is a NaN. *)
Definition ltb (x y : double) : bool := SFltb x y.

End Double.

Import Double.

(* ------------------------------------------------------------------ *)
(** ** C [int]                                                         *)
(* ------------------------------------------------------------------ *)

Module CInt.

Definition INT_MAX : Z := 2147483647.
Definition INT_MIN : Z := -2147483648.

Definition in_range (z : Z) : Prop := INT_MIN <= z <= INT_MAX.

(** [x++] on a signed [int]: the value [x + 1] when it is representable;
    signed overflow is undefined behaviour, rendered as [None]. *)
Definition incr (x : Z) : option Z :=
  if x <? INT_MAX then Some (x + 1) else None.

End CInt.

Import CInt.

(* ------------------------------------------------------------------ *)
(** ** The host interpreter                                            *)
(* ------------------------------------------------------------------ *)

Module Python.

(** The exceptions the argument parser raises. *)
Inductive PyErr : Type :=
| TypeError       (* wrong number of arguments, or not an integer *)
| OverflowError.  (* a Python integer outside the range of [int] *)

(** The Python values that matter to the extension. *)
#[local] Set Warnings "-register-all".
Inductive PyObject : Type :=
| PyNone
| PyLong (z : Z)
| PyFloat (d : double)
| PyUnicode (s : list Byte.byte)
| PyTuple (items : list PyObject).

(** The part of the interpreter state the C API of this module touches:
    the error indicator of the running thread. *)
Record pystate : Type := PyState { err_indicator : option PyErr }.

(** [PyErr_SetString] and the like: set the error indicator. *)
Definition raise (e : PyErr) (st : pystate) : pystate :=
  {| err_indicator := Some e |}.

(** [PyFloat_FromDouble]: box a C double. *)
Definition PyFloat_FromDouble (d : double) : PyObject := PyFloat d.

End Python.

Import Python.

(* ------------------------------------------------------------------ *)
(** ** The extension function                                          *)
(* ------------------------------------------------------------------ *)

(** Consecutive integers [lo, lo+1, ..., lo+len-1]. *)
Fixpoint zseq (lo : Z) (len : nat) : list Z :=
  match len with
  | O => []
  | S len' => lo :: zseq (lo + 1) len'
  end.

(** Program points of the loop nest, named after the source lines. *)
Inductive label : Type :=
| L13   (* line 13: about to test [i < n] *)
| L14   (* line 14: about to test [j < n] *)
| L19   (* line 19: both loops are over, [result] is returned *)
| UB.   (* an increment overflowed: undefined behaviour *)

(** The local variables at a program point.  [visited] is a ghost variable:
    the pairs [(i, j)] at which line 15 has been executed so far, oldest
    first. *)
Record config : Type := Config {
  pc : label;
  i : Z;
  j : Z;
  result : double;
  visited : list (Z * Z)
}.

(** What a call of the C function comes to. *)
Inductive outcome : Type :=
| Returns (v : option PyObject) (st : pystate)
    (* a normal return: an object, or [NULL] with the error indicator set *)
| Undefined   (* the execution ran into undefined behaviour *)
| OutOfFuel.  (* the execution has not finished within the given fuel *)

Section Extension.

(** libm's [sin] and [cos]. *)
Variable sin cos : double -> double.

(** [PyArg_ParseTuple(args, "i", &n)]: either an exception, or the C
    integer stored in [n]. *)
Variable PyArg_ParseTuple_i : PyObject -> PyErr + Z.

(** Line 15: [result += sin(i) * cos(j)]. *)
Definition term (a b : Z) : double := mul (sin (of_int a)) (cos (of_int b)).

Definition accumulate (acc : double) (p : Z * Z) : double :=
  add acc (term (fst p) (snd p)).

(** Lines 12-13, the initialisers: [result = 0.0] and [i = 0].  ([j] is not
    yet in scope; its slot holds 0.) *)
Definition init : config := Config L13 0 0 zero [].

(** One transition: evaluate the loop test at the current program point and
    run the code up to the next loop test. *)
Definition step (n : Z) (c : config) : config :=
  match pc c with
  | L13 =>
      if i c <? n
      then Config L14 (i c) 0 (result c) (visited c)          (* [j = 0] *)
      else Config L19 (i c) (j c) (result c) (visited c)
  | L14 =>
      if j c <? n
      then
        let r := accumulate (result c) (i c, j c) in           (* line 15 *)
        let v := visited c ++ [(i c, j c)] in
        match incr (j c) with                                  (* [j++] *)
        | Some j' => Config L14 (i c) j' r v
        | None => Config UB (i c) (j c) r v
        end
      else
        match incr (i c) with                                  (* [i++] *)
        | Some i' => Config L13 i' (j c) (result c) (visited c)
        | None => Config UB (i c) (j c) (result c) (visited c)
        end
  | L19 | UB => c
  end.

Fixpoint run (n : Z) (fuel : nat) (c : config) : config :=
  match fuel with
  | O => c
  | S fuel' => run n fuel' (step n c)
  end.

(** Lines 12-17 on their own: the value of [result] at line 19. *)
Definition compute_loop (fuel : nat) (n : Z) : option double :=
  let c := run n fuel init in
  match pc c with
  | L19 => Some (result c)
  | _ => None
  end.

(** The whole function, lines 6-20. *)
Definition compute_intensive (fuel : nat) (args : PyObject) (st : pystate)
  : outcome :=
  match PyArg_ParseTuple_i args with
  | inl e => Returns None (raise e st)                         (* line 9 *)
  | inr n =>
      let c := run n fuel init in
      match pc c with
      | L19 => Returns (Some (PyFloat_FromDouble (result c))) st
      | UB => Undefined
      | L13 | L14 => OutOfFuel
      end
  end.

(** Transitions that suffice for a call with argument [n]. *)
Definition fuel_for (n : Z) : nat :=
  if n <=? 0 then 1%nat else Z.to_nat (n * (n + 2) + 1).

(** *** The specification's reading of the sum *)

(** The index grid [0 <= i < n], [0 <= j < n] in [i]-major order. *)
Definition grid (n : Z) : list (Z * Z) :=
  list_prod (zseq 0 (Z.to_nat n)) (zseq 0 (Z.to_nat n)).

(** Start from [0.0] and add [sin(i) * cos(j)] pair after pair. *)
Definition nested_sum (n : Z) : double :=
  fold_left (fun acc p => add acc (mul (sin (of_int (fst p))) (cos (of_int (snd p)))))
            (grid n) zero.

(** The factored form: (sum of [sin(i)]) times (sum of [cos(j)]), each sum
    accumulated from [0.0] in double precision. *)
Definition factored_sum (n : Z) : double :=
  mul (fold_left (fun acc k => add acc (sin (of_int k))) (zseq 0 (Z.to_nat n)) zero)
      (fold_left (fun acc k => add acc (cos (of_int k))) (zseq 0 (Z.to_nat n)) zero).

End Extension.

(* ------------------------------------------------------------------ *)
(** ** Rounding: auxiliary notions                                     *)
(* ------------------------------------------------------------------ *)

(** The notions below serve the analysis of [SFadd] and [SFmul]: how the
    exact sum or product, an integer mantissa at some exponent, is cut and
    rounded to 53 bits. *)

(** [mrs] is what [k] right shifts make of the exact mantissa [M]: the
    quotient by [2^k], with the remainder summarised by the round and sticky
    bits. *)
Definition shifted (M k : Z) (mrs : shr_record) : Prop :=
  0 <= k /\ 0 <= shr_m mrs /\
  exists rem, 0 <= rem < 2 ^ k
    /\ M = shr_m mrs * 2 ^ k + rem
    /\ shr_r mrs = (2 ^ k <=? 2 * rem)
    /\ shr_s mrs = negb (rem =? 0) && negb (2 * rem =? 2 ^ k).

(** [mr] is [m' * 2^k + rem] rounded to the nearest multiple of [2^k], ties
    to even, and divided by [2^k]. *)
Definition nearest_even (mr m' rem k : Z) : Prop :=
  (mr = m' /\ (2 * rem < 2 ^ k \/ (2 * rem = 2 ^ k /\ Z.even m' = true)))
  \/ (mr = m' + 1 /\ (2 ^ k < 2 * rem \/ (2 * rem = 2 ^ k /\ Z.even m' = false))).

(** The float [out] stores the sign [s] and the rounded mantissa [mr] at
    exponent [u] (as [2^52] at [u + 1] when [mr] is [2^53]), or is the
    infinity that an exponent beyond the format gives. *)
Definition rounds_to (out : double) (s : bool) (mr u : Z) : Prop :=
  match out with
  | S754_zero s' => s' = s /\ mr = 0
  | S754_finite s' m2 e2 =>
      s' = s /\ e2 <= 971
      /\ ((Zpos m2 = mr /\ e2 = u /\ mr < 2 ^ 53)
          \/ (mr = 2 ^ 53 /\ Zpos m2 = 2 ^ 52 /\ e2 = u + 1))
  | S754_infinity s' => s' = s /\ 971 <= u
  | S754_nan => False
  end.

(** The value of a finite float counted in units of [2^u]; exact as soon as
    [u] is at most its exponent. *)
Definition units (u : Z) (x : double) : Z :=
  match x with
  | S754_finite s m e => cond_Zopp s (Zpos m * 2 ^ (e - u))
  | _ => 0
  end.

(** Zero, or finite with an exponent of at least [u]. *)
Definition fin_above (u : Z) (x : double) : Prop :=
  match x with
  | S754_zero _ => True
  | S754_finite _ _ e => u <= e
  | _ => False
  end.

(** The exponent of a finite float ([0] for the others). *)
Definition expo (x : double) : Z :=
  match x with S754_finite _ _ e => e | _ => 0 end.

(** What holds of the counters at every program point an execution reaches:
    no increment has overflowed, both counters lie between [0] and [n], and
    inside the inner loop [i < n]. *)
Definition counters_ok (n : Z) (c : config) : Prop :=
  pc c <> UB
  /\ 0 <= i c <= Z.max 0 n
  /\ 0 <= j c <= Z.max 0 n
  /\ (pc c = L14 -> i c < n).

(* ------------------------------------------------------------------ *)
(** ** Instances of the parameters                                     *)
(* ------------------------------------------------------------------ *)

(** The theorems below are stated for any libm and any argument parser.
    The following instances apply them to concrete inputs. *)

(** The format unit ["i"] on the values of [PyObject]: exactly one argument,
    a Python integer that fits a C [int]. *)
Definition parse_single_int (args : PyObject) : PyErr + Z :=
  match args with
  | PyTuple [PyLong z] =>
      if (INT_MIN <=? z) && (z <=? INT_MAX) then inr z else inl OverflowError
  | _ => inl TypeError
  end.

(** The doubles nearest to [sin k] and [cos k] for [k = 0, 1, 2, 3]; the
    remaining entries are placeholders. *)
Definition sin_ref (k : Z) : double :=
  match k with
  | 1 => S754_finite false 7579296827247854 (-53)   (* 0x1.aed548f090ceep-1 *)
  | 2 => S754_finite false 8190223105242182 (-53)   (* 0x1.d18f6ead1b446p-1 *)
  | 3 => S754_finite false 5084384125703515 (-55)   (* 0x1.210386db6d55bp-3 *)
  | _ => zero
  end.

Definition cos_ref (k : Z) : double :=
  match k with
  | 1 => S754_finite false 4866610526750348 (-53)   (* 0x1.14a280fb5068cp-1 *)
  | 2 => S754_finite true 7496634952020485 (-54)    (* -0x1.aa22657537205p-2 *)
  | 3 => S754_finite true 8917059677578706 (-53)    (* -0x1.fae04be85e5d2p-1 *)
  | _ => one
  end.

(** The integer a double stands for, when it is one of [0, 1, 2, 3]. *)
Definition small_int (x : double) : Z :=
  match x with
  | S754_finite false 4503599627370496 (-52) => 1
  | S754_finite false 4503599627370496 (-51) => 2
  | S754_finite false 6755399441055744 (-51) => 3
  | _ => 0
  end.

(** A libm excerpt: [sin] and [cos] on the doubles [0.0, 1.0, 2.0, 3.0]. *)
Definition table_sin (x : double) : double := sin_ref (small_int x).
Definition table_cos (x : double) : double := cos_ref (small_int x).

(** What holds of the accumulator at every program point an execution
    reaches: the number of terms added so far is [i * n + j], and [result] is
    finite, of magnitude at most that number and at most [2^53]. *)
Definition accumulator_ok (n : Z) (c : config) : Prop :=
  counters_ok n c
  /\ Z.of_nat (length (visited c))
     = match pc c with
       | L14 => i c * Z.max 0 n + j c
       | _ => i c * Z.max 0 n
       end
  /\ bounded_by (Z.min (Z.of_nat (length (visited c))) (2 ^ 53)) (result c).

(** An assumption on libm: on the integers below [n], [sin] and [cos] return
    finite doubles of magnitude at most 1. *)
Definition libm_in_unit_range (sin cos : double -> double) (n : Z) : Prop :=
  forall k, 0 <= k < n ->
    bounded_by 1 (sin (of_int k)) /\ bounded_by 1 (cos (of_int k)).

(* ------------------------------------------------------------------ *)
(** ** The loop nest on intervals                                      *)
(* ------------------------------------------------------------------ *)

(** An interval [(lo, hi)] stands for the doubles between [lo * 2^-g] and
    [hi * 2^-g]. *)
Definition contains (g : Z) (I : Z * Z) (x : double) : Prop :=
  is_finite x = true /\ (dy (fst I) (- g) <= F2Q x <= dy (snd I) (- g))%Q.

(** Both ends are representable: 53 bits at most. *)
Definition ival_ok (I : Z * Z) : bool :=
  (- 2 ^ 53 <=? fst I) && (snd I <=? 2 ^ 53).

Definition ival_add (I J : Z * Z) : Z * Z :=
  (fst I + fst J, snd I + snd J).

(** The product of two intervals, its ends rounded outwards to multiples of
    [2^-g]. *)
Definition ival_mul (g : Z) (I J : Z * Z) : Z * Z :=
  let p1 := fst I * fst J in
  let p2 := fst I * snd J in
  let p3 := snd I * fst J in
  let p4 := snd I * snd J in
  (Z.min (Z.min p1 p2) (Z.min p3 p4) / 2 ^ g,
   - (- Z.max (Z.max p1 p2) (Z.max p3 p4) / 2 ^ g)).

(** The loop nest run on intervals; [None] when an end leaves the
    representable range. *)
Definition ival_accumulate (g : Z) (Is Ic : Z -> Z * Z)
  (acc : option (Z * Z)) (p : Z * Z) : option (Z * Z) :=
  match acc with
  | None => None
  | Some A =>
      let T := ival_mul g (Is (fst p)) (Ic (snd p)) in
      let S := ival_add A T in
      if ival_ok T && ival_ok S then Some S else None
  end.

Definition ival_nested_sum (g : Z) (Is Ic : Z -> Z * Z) (n : Z) : option (Z * Z) :=
  fold_left (ival_accumulate g Is Ic) (grid n) (Some (0, 0)).

(** [sin k] and [cos k] for [k = 0, 1, 2, 3], to three decimals. *)
Definition sin_dec (k : Z) : Q :=
  match k with
  | 1 => 841 # 1000
  | 2 => 909 # 1000
  | 3 => 141 # 1000
  | _ => 0
  end.

Definition cos_dec (k : Z) : Q :=
  match k with
  | 1 => 540 # 1000
  | 2 => - 416 # 1000
  | 3 => - 990 # 1000
  | _ => 1
  end.

(** On the integers 0, 1, 2, 3, [sin] and [cos] return finite doubles within
    [1/100] of these decimals. *)
Definition libm_near_decimals (sin cos : double -> double) : Prop :=
  forall k, 0 <= k < 4 ->
    (is_finite (sin (of_int k)) = true
     /\ Qabs (F2Q (sin (of_int k)) - sin_dec k) <= 1 # 100)%Q
    /\ (is_finite (cos (of_int k)) = true
        /\ Qabs (F2Q (cos (of_int k)) - cos_dec k) <= 1 # 100)%Q.

(** The interval of radius [1/100] around a rational, its ends rounded
    outwards to multiples of [2^-40]. *)
Definition ival_around (q : Q) : Z * Z :=
  (Qfloor ((q - (1 # 100)) * 2 ^ 40), Qceiling ((q + (1 # 100)) * 2 ^ 40)).

(* ------------------------------------------------------------------ *)
(** ** Exact sine and cosine                                           *)
(* ------------------------------------------------------------------ *)

(** [n!] as an integer. *)
Fixpoint Zfact (n : nat) : Z :=
  match n with
  | O => 1
  | S k => Z.of_nat (S k) * Zfact k
  end.

(** [a^k] for a rational [a]. *)
Fixpoint Qpow (a : Q) (k : nat) : Q :=
  match k with
  | O => 1
  | S k' => a * Qpow a k'
  end.

(** The Taylor polynomials of sine and cosine at a rational argument. *)
Definition sin_term_Q (a : Q) (i : nat) : Q :=
  (Qpow (- (1)) i * (Qpow a (2 * i + 1) / inject_Z (Zfact (2 * i + 1))))%Q.

Definition cos_term_Q (a : Q) (i : nat) : Q :=
  (Qpow (- (1)) i * (Qpow a (2 * i) / inject_Z (Zfact (2 * i))))%Q.

Fixpoint Qsum (f : nat -> Q) (n : nat) : Q :=
  match n with
  | O => f O
  | S k => (Qsum f k + f (S k))%Q
  end.

Definition sin_approx_Q (a : Q) (n : nat) : Q := Qsum (sin_term_Q a) n.
Definition cos_approx_Q (a : Q) (n : nat) : Q := Qsum (cos_term_Q a) n.

(** Rational enclosures of [sin k] and [cos k] for [k = 0, 1, 2, 3], from
    the Taylor polynomials of degree 38 to 41; [cos 3] is taken as
    [1 - 2 sin^2 (3/2)]. *)
Definition sin_lo (k : Z) : Q :=
  match k with
  | 0 => 0
  | _ => Qred (sin_approx_Q (inject_Z k) 19)
  end.

Definition sin_hi (k : Z) : Q :=
  match k with
  | 0 => 0
  | _ => Qred (sin_approx_Q (inject_Z k) 20)
  end.

Definition cos_lo (k : Z) : Q :=
  match k with
  | 0 => 1
  | 3 => Qred (1 - 2 * (sin_approx_Q (3 # 2) 20 * sin_approx_Q (3 # 2) 20))
  | _ => Qred (cos_approx_Q (inject_Z k) 19)
  end.

Definition cos_hi (k : Z) : Q :=
  match k with
  | 0 => 1
  | 3 => Qred (1 - 2 * (sin_approx_Q (3 # 2) 19 * sin_approx_Q (3 # 2) 19))
  | _ => Qred (cos_approx_Q (inject_Z k) 20)
  end.

(** An assumption on libm: on the integers 0, 1, 2, 3, [sin] and [cos]
    return finite doubles within [9/1000] of the exact sine and cosine. *)
Definition libm_accurate (sin_d cos_d : double -> double) : Prop :=
  forall k, 0 <= k < 4 ->
    (valid_binary prec emax (sin_d (of_int k)) = true
     /\ is_finite (sin_d (of_int k)) = true
     /\ (Rabs (F2R (sin_d (of_int k)) - sin (IZR k)) <= 9 / 1000)%R)
    /\ (valid_binary prec emax (cos_d (of_int k)) = true
        /\ is_finite (cos_d (of_int k)) = true
        /\ (Rabs (F2R (cos_d (of_int k)) - cos (IZR k)) <= 9 / 1000)%R).

(** [v] is a double nearest to the real [x]: no double is closer. *)
Definition nearest_double (x : R) (v : double) : Prop :=
  valid_binary prec emax v = true /\ is_finite v = true
  /\ forall w, valid_binary prec emax w = true -> is_finite w = true ->
       (Rabs (F2R v - x) <= Rabs (F2R w - x))%R.

(** An assumption on libm: on the integers 0, 1, 2, 3, [sin] and [cos] are
    correctly rounded. *)
Definition libm_correctly_rounded (sin_d cos_d : double -> double) : Prop :=
  forall k, 0 <= k < 4 ->
    nearest_double (sin (IZR k)) (sin_d (of_int k))
    /\ nearest_double (cos (IZR k)) (cos_d (of_int k)).

(** The libm excerpt with [sin(0.0) = -0.0]. *)
Definition table_sin_neg (x : double) : double :=
  match small_int x with
  | 0 => S754_zero true
  | k => sin_ref k
  end.

(* ------------------------------------------------------------------ *)
(** ** Progress, a second libm and the exact sum: auxiliary notions    *)
(* ------------------------------------------------------------------ *)

(** The number of transitions an execution has made when it stands at a loop
    test with the counters of [c]: [n + 2] for each finished iteration of the
    outer loop, one for the test at line 13 and one for each finished
    iteration of the inner loop. *)
Definition transitions_made (n : Z) (c : config) : Z :=
  match pc c with
  | L13 => i c * (n + 2)
  | L14 => i c * (n + 2) + 1 + j c
  | L19 | UB => 0
  end.

(** A libm excerpt that knows [0.0] and [1.0] only: a NaN at [2.0] and
    [3.0]. *)
Definition partial_sin (x : double) : double :=
  match small_int x with
  | 0 => zero
  | 1 => sin_ref 1
  | _ => S754_nan
  end.

(** The double sum without rounding: the values libm returns, as rational
    numbers, multiplied and added exactly. *)
Definition exact_sum (sin cos : double -> double) (n : Z) : Q :=
  fold_left
    (fun acc p => (acc + F2Q (sin (of_int (fst p))) * F2Q (cos (of_int (snd p))))%Q)
    (grid n) 0%Q.

(** The same in factored form: the sum of the sines times the sum of the
    cosines. *)
Definition exact_factored (sin cos : double -> double) (n : Z) : Q :=
  (fold_left (fun acc k => acc + F2Q (sin (of_int k))) (zseq 0 (Z.to_nat n)) 0
   * fold_left (fun acc k => acc + F2Q (cos (of_int k))) (zseq 0 (Z.to_nat n)) 0)%Q.

(* ------------------------------------------------------------------ *)
(** ** Rounding to nearest, ties to even                               *)
(* ------------------------------------------------------------------ *)

Lemma pow2_pos (a : Z) : 0 <= a -> 0 < 2 ^ a.
Proof. intros; apply Z.pow_pos_nonneg; lia. Qed.

Lemma pow2_succ (a : Z) : 0 <= a -> 2 ^ (a + 1) = 2 * 2 ^ a.
Proof. intros; rewrite Z.pow_add_r by lia; lia. Qed.

Lemma digits2_pos_bounds (p : positive) :
  2 ^ (Zpos (digits2_pos p) - 1) <= Zpos p < 2 ^ Zpos (digits2_pos p).
Proof.
  induction p as [p IH|p IH|]; cbn [digits2_pos].
  - rewrite Pos2Z.inj_succ. replace (Z.succ (Zpos (digits2_pos p)) - 1) with (Zpos (digits2_pos p) - 1 + 1) by lia.
    unfold Z.succ. rewrite !pow2_succ by lia. lia.
  - rewrite Pos2Z.inj_succ. replace (Z.succ (Zpos (digits2_pos p)) - 1) with (Zpos (digits2_pos p) - 1 + 1) by lia.
    unfold Z.succ. rewrite !pow2_succ by lia. lia.
  - cbn. lia.
Qed.

(** One right shift of a record whose mantissa is non-negative. *)
Lemma shr_1_spec (mrs : shr_record) :
  0 <= shr_m mrs ->
  exists b : bool,
    shr_m mrs = 2 * shr_m (shr_1 mrs) + (if b then 1 else 0)
    /\ 0 <= shr_m (shr_1 mrs)
    /\ shr_r (shr_1 mrs) = b
    /\ shr_s (shr_1 mrs) = shr_r mrs || shr_s mrs.
Proof.
  destruct mrs as [m r s]; cbn [shr_m shr_r shr_s]. intro Hm.
  destruct m as [|[p|p|]|p]; try lia; cbn [shr_1 shr_m shr_r shr_s].
  - exists false. repeat split; lia.
  - exists true. repeat split; lia.
  - exists false. repeat split; lia.
  - exists true. repeat split; lia.
Qed.

Lemma shifted_0 (M : Z) : 0 <= M -> shifted M 0 (Build_shr_record M false false).
Proof.
  intro HM. unfold shifted; cbn [shr_m shr_r shr_s]. repeat split; try lia.
  exists 0. cbn. repeat split; lia.
Qed.

Lemma shifted_step (M k : Z) (mrs : shr_record) :
  shifted M k mrs -> shifted M (k + 1) (shr_1 mrs).
Proof.
  intros (Hk & Hm & rem & Hrem & HM & Hr & Hs).
  destruct (shr_1_spec mrs Hm) as (b & Hb & Hm' & Hr' & Hs').
  pose proof (pow2_pos k Hk) as Hp.
  unfold shifted. rewrite pow2_succ by lia. repeat split; try lia.
  exists (rem + (if b then 2 ^ k else 0)).
  rewrite Hr', Hs', Hr, Hs. repeat split.
  - destruct b; lia.
  - destruct b; lia.
  - rewrite HM, Hb. destruct b; lia.
  - destruct b; symmetry; [apply Z.leb_le|apply Z.leb_gt]; lia.
  - destruct b;
      repeat match goal with
        | |- context [Z.eqb ?a ?b] => destruct (Z.eqb_spec a b)
        | |- context [Z.leb ?a ?b] => destruct (Z.leb_spec a b)
        end; cbn; first [reflexivity | exfalso; lia].
Qed.

Lemma shifted_iter_pos (p : positive) :
  forall M k mrs, shifted M k mrs -> shifted M (k + Zpos p) (iter_pos shr_1 p mrs).
Proof.
  induction p as [p IH|p IH|]; intros M k mrs H; cbn [iter_pos].
  - replace (k + Zpos p~1) with (k + 1 + Zpos p + Zpos p) by lia.
    apply IH, IH, shifted_step, H.
  - replace (k + Zpos p~0) with (k + Zpos p + Zpos p) by lia.
    apply IH, IH, H.
  - apply shifted_step, H.
Qed.

Lemma fexp_eq (x : Z) : fexp prec emax x = Z.max (x - 53) (-1074).
Proof. reflexivity. Qed.

Lemma shr_shifted (M e k : Z) :
  0 <= M ->
  exists mrs,
    shr (Build_shr_record M false false) e k = (mrs, e + Z.max 0 k)
    /\ shifted M (Z.max 0 k) mrs.
Proof.
  intro HM. destruct k as [|p|p]; cbn [shr].
  - eexists; split; [f_equal; lia|]. apply shifted_0, HM.
  - eexists; split; [reflexivity|].
    replace (Z.max 0 (Zpos p)) with (0 + Zpos p) by lia.
    apply shifted_iter_pos, shifted_0, HM.
  - eexists; split; [f_equal; lia|]. apply shifted_0, HM.
Qed.

Lemma round_nearest_even_shifted (M k : Z) (mrs : shr_record) :
  shifted M k mrs ->
  exists rem, 0 <= rem < 2 ^ k /\ M = shr_m mrs * 2 ^ k + rem
    /\ nearest_even (round_nearest_even (shr_m mrs) (loc_of_shr_record mrs))
         (shr_m mrs) rem k.
Proof.
  intros (Hk & Hm & rem & Hrem & HM & Hr & Hs).
  exists rem. split; [exact Hrem|]. split; [exact HM|].
  pose proof (pow2_pos k Hk) as Hp.
  destruct mrs as [m r s]; cbn [shr_m shr_r shr_s] in *.
  unfold nearest_even.
  destruct (Z.leb_spec (2 ^ k) (2 * rem)) as [Hle|Hlt];
    destruct (Z.eqb_spec rem 0) as [E0|N0];
    destruct (Z.eqb_spec (2 * rem) (2 ^ k)) as [Eh|Nh];
    cbn in Hs; subst r s; cbn [loc_of_shr_record round_nearest_even];
    try (exfalso; lia).
  - change (IntDef.Z.even m) with (Z.even m).
    destruct (Z.even m) eqn:Ev; [left|right]; (split; [reflexivity|]); right; split; first [assumption|reflexivity].
  - right. split; [reflexivity|]. left. lia.
  - left. split; [reflexivity|]. left. lia.
  - left. split; [reflexivity|]. left. lia.
Qed.

Lemma Zdigits2_le_53 (m : Z) : 0 <= m < 2 ^ 53 -> Zdigits2 m <= 53.
Proof.
  intros Hm. destruct m as [|p|p]; cbn [Zdigits2]; try lia.
  pose proof (digits2_pos_bounds p) as [Hlo _].
  destruct (Z.le_gt_cases (Zpos (digits2_pos p)) 53) as [H|H]; [exact H|exfalso].
  assert (2 ^ 53 <= 2 ^ (Zpos (digits2_pos p) - 1)) by (apply Z.pow_le_mono_r; lia).
  lia.
Qed.

(** What [binary_round_aux] computes from an exact positive mantissa [M] at
    exponent [e]: the mantissa is cut to the grid of step [2^k], rounded to
    the nearest multiple (ties to even), and the result is stored with at
    most one more shift. *)
Lemma binary_round_aux_spec (s : bool) (M : positive) (e : Z) :
  exists k m' rem mr : Z,
    0 <= k /\ 0 <= m' < 2 ^ 53 /\ 0 <= rem < 2 ^ k
    /\ Zpos M = m' * 2 ^ k + rem
    /\ (k = 0 \/ 2 ^ 52 <= m' \/ e + k = -1074)
    /\ e + k = Z.max e (Z.max (Zpos (digits2_pos M) + e - 53) (-1074))
    /\ nearest_even mr m' rem k
    /\ rounds_to (binary_round_aux prec emax s (Zpos M) e loc_Exact) s mr (e + k).
Proof.
  unfold binary_round_aux, shr_fexp. cbn [shr_record_of_loc Zdigits2].
  rewrite fexp_eq.
  set (d := Zpos (digits2_pos M)).
  pose proof (digits2_pos_bounds M) as [Hdlo Hdhi]. fold d in Hdlo, Hdhi.
  assert (Hd : 1 <= d) by (unfold d; lia).
  set (k := Z.max 0 (Z.max (d + e - 53) (-1074) - e)).
  destruct (shr_shifted (Zpos M) e (Z.max (d + e - 53) (-1074) - e))
    as (mrs1 & E1 & S1); [lia|].
  rewrite E1. fold k in S1 |- *.
  destruct (round_nearest_even_shifted _ _ _ S1) as (rem & Hrem & HM & Hrn).
  destruct S1 as (Hk & Hm1 & _).
  set (m' := shr_m mrs1) in *.
  set (mr := round_nearest_even m' (loc_of_shr_record mrs1)) in *.
  pose proof (pow2_pos k Hk) as Hpk.
  (* the quotient has at most 53 digits *)
  assert (Hm53 : m' < 2 ^ 53).
  { destruct (Z.lt_ge_cases m' (2 ^ 53)) as [H|H]; [exact H|exfalso].
    assert (2 ^ (53 + k) <= Zpos M).
    { rewrite Z.pow_add_r by lia. nia. }
    assert (d <= 53 + k) by lia.
    assert (2 ^ d <= 2 ^ (53 + k)) by (apply Z.pow_le_mono_r; lia).
    lia. }
  assert (Hgrid : k = 0 \/ 2 ^ 52 <= m' \/ e + k = -1074).
  { destruct (Z.eq_dec k 0) as [->|Hk0]; [now left|right].
    destruct (Z.le_gt_cases (d + e - 53) (-1074)) as [Hsub|Hnorm]; [right; lia|left].
    assert (Ek : k = d - 53) by lia.
    destruct (Z.le_gt_cases (2 ^ 52) m') as [H|H]; [exact H|exfalso].
    assert (Zpos M < 2 ^ (52 + k)).
    { rewrite Z.pow_add_r by lia. nia. }
    replace (52 + k) with (d - 1) in * by lia. lia. }
  assert (Hmr : m' <= mr <= m' + 1).
  { destruct Hrn as [[-> _]|[-> _]]; lia. }
  exists k, m', rem, mr.
  repeat (split; [first [assumption | lia]|]).
  (* the second shift *)
  destruct (shr_shifted mr (e + k) (fexp prec emax (Zdigits2 mr + (e + k)) - (e + k)))
    as (mrs2 & E2 & S2); [lia|].
  rewrite E2. rewrite fexp_eq in S2 |- *.
  assert (Hek : -1074 <= e + k) by lia.
  destruct (Z.eq_dec mr (2 ^ 53)) as [Hcarry|Hnocarry].
  - (* the rounded mantissa is 2^53: one more shift *)
    rewrite Hcarry in S2 |- *. cbn [Zdigits2 digits2_pos Pos.succ Z.pow Z.pow_pos Pos.iter Z.mul Pos.mul] in S2 |- *.
    replace (Z.max 0 (Z.max (54 + (e + k) - 53) (-1074) - (e + k))) with 1 in S2 |- * by lia.
    destruct S2 as (_ & Hm2 & rem2 & Hrem2 & HM2 & _).
    change (2 ^ 1) with 2 in *.
    unfold rounds_to.
    destruct (shr_m mrs2) as [|m2|m2] eqn:Em2; try lia.
    change (emax - prec) with 971.
    destruct (Z.leb_spec (e + k + 1) 971).
    + split; [reflexivity|]. split; [lia|]. right. repeat split; lia.
    + split; [reflexivity|lia].
  - (* no carry: the mantissa is stored as it is *)
    assert (Hd2 : Zdigits2 mr <= 53) by (apply Zdigits2_le_53; lia).
    replace (Z.max 0 (Z.max (Zdigits2 mr + (e + k) - 53) (-1074) - (e + k))) with 0 in S2 |- * by lia.
    destruct S2 as (_ & Hm2 & rem2 & Hrem2 & HM2 & _).
    change (2 ^ 0) with 1 in *.
    unfold rounds_to.
    destruct (shr_m mrs2) as [|m2|m2] eqn:Em2; try lia.
    + split; [reflexivity|lia].
    + change (emax - prec) with 971. rewrite Z.add_0_r.
      destruct (Z.leb_spec (e + k) 971).
      * split; [reflexivity|]. split; [lia|]. left. repeat split; lia.
      * split; [reflexivity|lia].
Qed.

(** The value stored by a finite result. *)
Lemma rounds_to_finite (s s' : bool) (m2 : positive) (e2 mr u : Z) :
  rounds_to (S754_finite s' m2 e2) s mr u ->
  s' = s /\ u <= e2 <= 971 /\ Zpos m2 * 2 ^ (e2 - u) = mr.
Proof.
  intros (-> & He2 & [(Hm & -> & _)|(-> & Hm & ->)]).
  - rewrite Z.sub_diag. change (2 ^ 0) with 1. repeat split; lia.
  - replace (u + 1 - u) with 1 by lia. change (2 ^ 1) with 2.
    rewrite Hm. repeat split; lia.
Qed.

Lemma pow2_split (a b : Z) : 0 <= a -> 0 <= b -> 2 ^ (a + b) = 2 ^ a * 2 ^ b.
Proof. intros; apply Z.pow_add_r; lia. Qed.

Lemma pow2_le (a b : Z) : 0 <= a <= b -> 2 ^ a <= 2 ^ b.
Proof. intros; apply Z.pow_le_mono_r; lia. Qed.

Lemma pow2_lt_inv (a b : Z) : 0 <= a -> 0 <= b -> 2 ^ a < 2 ^ b -> a < b.
Proof. intros Ha Hb H. apply (Z.pow_lt_mono_r_iff 2); lia. Qed.

Lemma pow2_le_inv (a b : Z) : 0 <= a -> 0 <= b -> 2 ^ a <= 2 ^ b -> a <= b.
Proof. intros Ha Hb H. apply (Z.pow_le_mono_r_iff 2); lia. Qed.

(** The rounded mantissa stays between any two representable bounds that
    enclose the exact value.  Everything is counted in units of [2^u]; a
    bound is [A * 2^-g] with [|A| <= 2^53] and [2^-g] no finer than the
    smallest subnormal. *)
Lemma nearest_even_encl (M e g u A B k m' rem mr : Z) :
  0 <= g <= 1074 -> u <= e -> u <= - g ->
  0 <= A -> B <= 2 ^ 53 ->
  A * 2 ^ (- g - u) <= M * 2 ^ (e - u) <= B * 2 ^ (- g - u) ->
  0 <= k -> 0 <= m' -> 0 <= rem < 2 ^ k ->
  M = m' * 2 ^ k + rem ->
  (k = 0 \/ 2 ^ 52 <= m' \/ e + k = -1074) ->
  nearest_even mr m' rem k ->
  A * 2 ^ (- g - u) <= mr * 2 ^ (e + k - u) <= B * 2 ^ (- g - u).
Proof.
  intros Hg Hue Hug HA HB [HAM HMB] Hk Hm' Hrem HM Hgrid Hrn.
  replace (e + k - u) with (k + (e - u)) by lia.
  rewrite pow2_split by lia.
  pose proof (pow2_pos k Hk) as Hpk.
  pose proof (pow2_pos (e - u) ltac:(lia)) as Hpe.
  pose proof (pow2_pos (- g - u) ltac:(lia)) as Hpc.
  set (pk := 2 ^ k) in *. set (pe := 2 ^ (e - u)) in *. set (c := 2 ^ (- g - u)) in *.
  (* the bounds are multiples of the grid step, or the grid is coarser than
     the bounds and the quotient is normal *)
  destruct (Z.le_gt_cases (k + (e - u)) (- g - u)) as [Hfine|Hcoarse].
  - assert (Ec : c = 2 ^ (- g - u - (k + (e - u))) * (pk * pe)).
    { unfold c, pk, pe. rewrite <- !pow2_split by lia. f_equal. lia. }
    pose proof (pow2_pos (- g - u - (k + (e - u))) ltac:(lia)) as Hpq.
    set (q := 2 ^ (- g - u - (k + (e - u)))) in *.
    assert (Hstep : 0 < pk * pe) by nia.
    set (st := pk * pe) in *.
    assert (HMst : M * pe = m' * st + rem * pe) by (unfold st; nia).
    assert (Hrst : 0 <= rem * pe < st) by (unfold st; nia).
    rewrite Ec in *.
    replace (mr * (pk * pe)) with (mr * st) by reflexivity.
    assert (HAm : A * q <= m') by nia.
    destruct Hrn as [[-> _]|[-> Hup]].
    + split; nia.
    + assert (0 < rem) by (destruct Hup as [?|[? _]]; lia).
      assert (m' < B * q) by nia.
      split; nia.
  - destruct Hgrid as [Hk0|[Hnorm|Hsub]]; [| |lia].
    + subst k. change (2 ^ 0) with 1 in *. unfold pk in *.
      assert (rem = 0) by lia. subst rem.
      destruct Hrn as [[-> _]|[_ [?|[? _]]]]; try lia.
    + assert (Hc : 2 * c <= pk * pe).
      { unfold c, pk, pe. rewrite <- pow2_split by lia.
        replace (2 * 2 ^ (- g - u)) with (2 ^ (- g - u + 1)) by (rewrite pow2_succ; lia).
        apply pow2_le. lia. }
      assert (B * c <= 2 ^ 52 * (pk * pe)) by nia.
      assert (Hmle : B * c <= m' * (pk * pe)) by nia.
      assert (HMst : M * pe = m' * (pk * pe) + rem * pe) by nia.
      assert (rem = 0) by nia. subst rem.
      destruct Hrn as [[-> _]|[_ [?|[? _]]]]; try lia.
Qed.

Lemma binary_round_aux_encl (s : bool) (M : positive) (e g u A B : Z) :
  0 <= g <= 1074 -> u <= e -> u <= - g ->
  - 2 ^ 53 <= A -> B <= 2 ^ 53 ->
  A * 2 ^ (- g - u) <= cond_Zopp s (Zpos M * 2 ^ (e - u)) <= B * 2 ^ (- g - u) ->
  fin_above u (binary_round_aux prec emax s (Zpos M) e loc_Exact)
  /\ A * 2 ^ (- g - u) <= units u (binary_round_aux prec emax s (Zpos M) e loc_Exact)
     <= B * 2 ^ (- g - u).
Proof.
  intros Hg Hue Hug HA HB Hencl.
  destruct (binary_round_aux_spec s M e)
    as (k & m' & rem & mr & Hk & Hm' & Hrem & HM & Hgrid & Hek & Hrn & Hout).
  pose proof (pow2_pos (e - u) ltac:(lia)) as Hpe.
  pose proof (pow2_pos (- g - u) ltac:(lia)) as Hpc.
  pose proof (pow2_pos (e + k - u) ltac:(lia)) as Hpk.
  (* bounds on the magnitude *)
  assert (Hmag : exists A' B', 0 <= A' /\ B' <= 2 ^ 53
            /\ A' * 2 ^ (- g - u) <= Zpos M * 2 ^ (e - u) <= B' * 2 ^ (- g - u)
            /\ (forall U, A' * 2 ^ (- g - u) <= U <= B' * 2 ^ (- g - u) ->
                  A * 2 ^ (- g - u) <= cond_Zopp s U <= B * 2 ^ (- g - u))).
  { destruct s; cbn [cond_Zopp] in *.
    - exists (Z.max 0 (- B)), (- A).
      destruct (Z.max_spec 0 (- B)) as [[? E]|[? E]]; rewrite E;
        repeat split; intros; nia.
    - exists (Z.max 0 A), B.
      destruct (Z.max_spec 0 A) as [[? E]|[? E]]; rewrite E;
        repeat split; intros; nia. }
  destruct Hmag as (A' & B' & HA' & HB' & Hencl' & Hback).
  pose proof (nearest_even_encl (Zpos M) e g u A' B' k m' rem mr
                Hg Hue Hug HA' HB' Hencl' Hk (proj1 Hm') Hrem HM Hgrid Hrn) as Hmr.
  (* no overflow *)
  assert (Hsmall : e + k <= 54).
  { pose proof (digits2_pos_bounds M) as [Hdlo _].
    set (d := Zpos (digits2_pos M)) in *.
    assert (Hd : 1 <= d) by (unfold d; lia).
    assert (Hb : Zpos M * 2 ^ (e - u) <= 2 ^ (53 + (- g - u))).
    { rewrite pow2_split by lia. nia. }
    assert (He : e - u <= 53 + (- g - u)).
    { apply pow2_le_inv; try lia. nia. }
    assert (Hde : d - 1 + (e - u) <= 53 + (- g - u)).
    { apply pow2_le_inv; try lia. rewrite pow2_split by lia. nia. }
    lia. }
  unfold rounds_to in Hout.
  destruct (binary_round_aux prec emax s (Zpos M) e loc_Exact) as [s'|s'| |s' m2 e2];
    cbn [fin_above units].
  - destruct Hout as [_ ->]. split; [exact I|].
    replace 0 with (cond_Zopp s 0) by (destruct s; reflexivity). apply Hback. lia.
  - destruct Hout as [_ ?]. lia.
  - contradiction.
  - apply rounds_to_finite in Hout. destruct Hout as (-> & He2 & Hm2).
    split; [lia|]. apply Hback.
    replace (e2 - u) with (e2 - (e + k) + (e + k - u)) by lia.
    rewrite pow2_split by lia. rewrite Z.mul_assoc, Hm2. exact Hmr.
Qed.

Lemma Pos_iter_xO (d m : positive) : Zpos (Pos.iter xO m d) = Zpos m * 2 ^ Zpos d.
Proof.
  induction d as [|d IH] using Pos.peano_ind.
  - cbn. lia.
  - rewrite Pos.iter_succ, Pos2Z.inj_succ. unfold Z.succ.
    rewrite pow2_succ by lia. rewrite Pos2Z.inj_xO, IH. lia.
Qed.

Lemma shl_align_spec (m : positive) (e e' : Z) :
  e' <= e ->
  shl_align m e e' = (fst (shl_align m e e'), e')
  /\ Zpos (fst (shl_align m e e')) = Zpos m * 2 ^ (e - e').
Proof.
  intro H. unfold shl_align.
  destruct (e' - e) as [|d|d] eqn:E; try lia; cbn [fst].
  - replace e' with e by lia. rewrite Z.sub_diag. split; [reflexivity|]. cbn. lia.
  - split; [reflexivity|]. rewrite Pos_iter_xO. f_equal. f_equal. lia.
Qed.

Lemma binary_round_encl (s : bool) (M : positive) (e g u A B : Z) :
  0 <= g <= 1074 -> u <= e -> u <= -1074 ->
  - 2 ^ 53 <= A -> B <= 2 ^ 53 ->
  A * 2 ^ (- g - u) <= cond_Zopp s (Zpos M * 2 ^ (e - u)) <= B * 2 ^ (- g - u) ->
  fin_above u (binary_round prec emax s M e)
  /\ A * 2 ^ (- g - u) <= units u (binary_round prec emax s M e) <= B * 2 ^ (- g - u).
Proof.
  intros Hg Hue Hu HA HB Hencl. unfold binary_round. rewrite fexp_eq.
  set (e' := Z.max (Zpos (digits2_pos M) + e - 53) (-1074)).
  destruct (Z.le_gt_cases e e') as [Hle|Hgt].
  - (* the mantissa is long enough: no alignment *)
    assert (E : shl_align M e e' = (M, e)).
    { unfold shl_align. destruct (e' - e) eqn:E; try lia; reflexivity. }
    rewrite E. apply binary_round_aux_encl with (g := g); assumption || lia.
  - destruct (shl_align_spec M e e' ltac:(lia)) as [E Hmz]. rewrite E.
    apply binary_round_aux_encl with (g := g); try lia.
    rewrite Hmz. rewrite <- Z.mul_assoc, <- (pow2_split (e - e') (e' - u)) by lia.
    replace (e - e' + (e' - u)) with (e - u) by lia. exact Hencl.
Qed.

(** The exact sum formed by [SFadd] before rounding. *)
Lemma aligned_sum_units (sx sy : bool) (mx my : positive) (ex ey u : Z) :
  u <= ex -> u <= ey ->
  (cond_Zopp sx (Zpos (fst (shl_align mx ex (Z.min ex ey))))
   + cond_Zopp sy (Zpos (fst (shl_align my ey (Z.min ex ey))))) * 2 ^ (Z.min ex ey - u)
  = units u (S754_finite sx mx ex) + units u (S754_finite sy my ey).
Proof.
  intros Hx Hy. cbn [units].
  destruct (shl_align_spec mx ex (Z.min ex ey) ltac:(lia)) as [_ ->].
  destruct (shl_align_spec my ey (Z.min ex ey) ltac:(lia)) as [_ ->].
  replace (ex - u) with (ex - Z.min ex ey + (Z.min ex ey - u)) by lia.
  replace (ey - u) with (ey - Z.min ex ey + (Z.min ex ey - u)) by lia.
  rewrite !pow2_split by lia.
  destruct sx, sy; cbn [cond_Zopp]; lia.
Qed.

Lemma add_encl_units (x y : spec_float) (g u A B : Z) :
  fin_above u x -> fin_above u y -> u <= -1074 -> 0 <= g <= 1074 ->
  - 2 ^ 53 <= A -> B <= 2 ^ 53 ->
  A * 2 ^ (- g - u) <= units u x + units u y <= B * 2 ^ (- g - u) ->
  fin_above u (SFadd prec emax x y)
  /\ A * 2 ^ (- g - u) <= units u (SFadd prec emax x y) <= B * 2 ^ (- g - u).
Proof.
  intros Hx Hy Hu Hg HA HB Hencl.
  destruct x as [sx|sx| |sx mx ex], y as [sy|sy| |sy my ey];
    cbn [fin_above] in Hx, Hy; try contradiction.
  - cbn [units] in Hencl. destruct sx, sy; cbn; (split; [exact I|lia]).
  - cbn [SFadd]. split; [exact Hy|]. cbn [units] in Hencl |- *. lia.
  - cbn [SFadd]. split; [exact Hx|]. cbn [units] in Hencl |- *. lia.
  - unfold SFadd.
    pose proof (aligned_sum_units sx sy mx my ex ey u Hx Hy) as Hsum.
    set (S := cond_Zopp sx (Zpos (fst (shl_align mx ex (Z.min ex ey))))
              + cond_Zopp sy (Zpos (fst (shl_align my ey (Z.min ex ey))))) in *.
    rewrite <- Hsum in Hencl.
    destruct S as [|p|p]; cbn [binary_normalize].
    + cbn [fin_above units]. split; [exact I|lia].
    + apply binary_round_encl with (g := g); try lia. exact Hencl.
    + apply binary_round_encl with (g := g); try lia. cbn [cond_Zopp]. lia.
Qed.

(** A mantissa just above [2^53], by at most one unit of [2^0], rounds down
    to [2^53]: the midpoint [2^53 + 1] is a tie and [2^52] is even. *)
Lemma binary_round_aux_tie (s : bool) (M : positive) (e u : Z) :
  u <= e -> u <= 0 -> e <= 1 ->
  2 ^ 53 * 2 ^ (- u) < Zpos M * 2 ^ (e - u) <= (2 ^ 53 + 1) * 2 ^ (- u) ->
  fin_above u (binary_round_aux prec emax s (Zpos M) e loc_Exact)
  /\ units u (binary_round_aux prec emax s (Zpos M) e loc_Exact)
     = cond_Zopp s (2 ^ 53 * 2 ^ (- u)).
Proof.
  intros Hue Hu He [Hlo Hhi].
  destruct (binary_round_aux_spec s M e)
    as (k & m' & rem & mr & Hk & Hm' & Hrem & HM & Hgrid & Hek & Hrn & Hout).
  pose proof (digits2_pos_bounds M) as [Hdlo Hdhi].
  set (d := Zpos (digits2_pos M)) in *.
  assert (Hd : 1 <= d) by (unfold d; lia).
  pose proof (pow2_pos (e - u) ltac:(lia)) as Hpe.
  pose proof (pow2_pos (- u) ltac:(lia)) as Hpc.
  (* the exact value lies in the binade of 2^53 *)
  assert (Hd54 : d + e = 54).
  { assert (2 ^ (53 + - u) < 2 ^ (d + (e - u))).
    { rewrite !pow2_split by lia. nia. }
    assert (2 ^ (d - 1 + (e - u)) < 2 ^ (54 + - u)).
    { rewrite (pow2_split (d - 1)) by lia.
      replace (54 + - u) with (53 + - u + 1) by lia.
      rewrite pow2_succ, pow2_split by lia. nia. }
    assert (53 + - u < d + (e - u)) by (apply pow2_lt_inv; lia).
    assert (d - 1 + (e - u) < 54 + - u) by (apply pow2_lt_inv; lia).
    lia. }
  assert (Ek : k = 1 - e) by lia.
  assert (Estep : 2 ^ k * 2 ^ (e - u) = 2 * 2 ^ (- u)).
  { rewrite <- pow2_split by lia. replace (k + (e - u)) with (- u + 1) by lia.
    rewrite pow2_succ by lia. lia. }
  pose proof (pow2_pos k Hk) as Hpk.
  set (pk := 2 ^ k) in *. set (pe := 2 ^ (e - u)) in *. set (c := 2 ^ (- u)) in *.
  assert (Hm52 : m' = 2 ^ 52).
  { assert (M53 : 2 ^ 53 = 2 * 2 ^ 52) by reflexivity.
    assert (HMpe : Zpos M * pe = m' * (2 * c) + rem * pe) by nia.
    assert (0 <= rem * pe < 2 * c) by nia.
    nia. }
  assert (Hmr : mr = 2 ^ 52).
  { assert (HMpe : Zpos M * pe = m' * (2 * c) + rem * pe) by nia.
    assert (Hr : 2 * (rem * pe) <= pk * pe) by nia.
    assert (Hr2 : 2 * rem <= pk) by nia.
    destruct Hrn as [[-> _]|[_ [?|[_ Hodd]]]]; [exact Hm52|lia|].
    rewrite Hm52 in Hodd. discriminate Hodd. }
  unfold rounds_to in Hout.
  destruct (binary_round_aux prec emax s (Zpos M) e loc_Exact) as [s'|s'| |s' m2 e2];
    cbn [fin_above units].
  - destruct Hout as [_ ?]. lia.
  - destruct Hout as [_ ?]. lia.
  - contradiction.
  - apply rounds_to_finite in Hout. destruct Hout as (-> & He2 & Hm2).
    split; [lia|]. f_equal.
    replace (e2 - u) with (e2 - (e + k) + (1 + - u)) by lia.
    rewrite pow2_split by lia. rewrite Z.mul_assoc, Hm2, Hmr.
    rewrite Z.add_comm, pow2_succ by lia. fold c. change (2 ^ 53) with (2 * 2 ^ 52). lia.
Qed.

Lemma binary_round_tie (s : bool) (M : positive) (e u : Z) :
  u <= e -> u <= -1074 -> e <= 1 ->
  2 ^ 53 * 2 ^ (- u) < Zpos M * 2 ^ (e - u) <= (2 ^ 53 + 1) * 2 ^ (- u) ->
  fin_above u (binary_round prec emax s M e)
  /\ units u (binary_round prec emax s M e) = cond_Zopp s (2 ^ 53 * 2 ^ (- u)).
Proof.
  intros Hue Hu He Hencl. unfold binary_round. rewrite fexp_eq.
  set (e' := Z.max (Zpos (digits2_pos M) + e - 53) (-1074)).
  destruct (Z.le_gt_cases e e') as [Hle|Hgt].
  - assert (E : shl_align M e e' = (M, e)).
    { unfold shl_align. destruct (e' - e) eqn:E; try lia; reflexivity. }
    rewrite E. apply binary_round_aux_tie; assumption || lia.
  - destruct (shl_align_spec M e e' ltac:(lia)) as [E Hmz]. rewrite E.
    apply binary_round_aux_tie; try lia.
    rewrite Hmz. rewrite <- Z.mul_assoc, <- (pow2_split (e - e') (e' - u)) by lia.
    replace (e - e' + (e' - u)) with (e - u) by lia. exact Hencl.
Qed.

(** Adding a term of magnitude at most 1 to an accumulator of magnitude at
    most [2^53] leaves the accumulator within [2^53]. *)
Lemma add_saturates_units (x y : spec_float) (u : Z) :
  fin_above u x -> fin_above u y -> u <= -1074 ->
  Z.abs (units u x) <= 2 ^ 53 * 2 ^ (- u) ->
  Z.abs (units u y) <= 2 ^ (- u) ->
  fin_above u (SFadd prec emax x y)
  /\ Z.abs (units u (SFadd prec emax x y)) <= 2 ^ 53 * 2 ^ (- u).
Proof.
  intros Hx Hy Hu Hax Hay.
  pose proof (pow2_pos (- u) ltac:(lia)) as Hpc.
  destruct (Z.le_gt_cases (Z.abs (units u x + units u y)) (2 ^ 53 * 2 ^ (- u)))
    as [Hsmall|Hbig].
  - assert (Henc : - 2 ^ 53 * 2 ^ (- 0 - u) <= units u x + units u y
                   <= 2 ^ 53 * 2 ^ (- 0 - u)).
    { replace (- 0 - u) with (- u) by lia. lia. }
    destruct (add_encl_units x y 0 u (- 2 ^ 53) (2 ^ 53) Hx Hy Hu
                ltac:(lia) ltac:(lia) ltac:(lia) Henc) as [Hf Hb].
    replace (- 0 - u) with (- u) in Hb by lia.
    split; [exact Hf|lia].
  - destruct x as [sx|sx| |sx mx ex], y as [sy|sy| |sy my ey];
      cbn [fin_above] in Hx, Hy; try contradiction;
      try (cbn [units] in Hax, Hay, Hbig; exfalso; lia).
    assert (Hey : ey <= 0).
    { cbn [units] in Hay.
      assert (2 ^ (ey - u) <= 2 ^ (- u)).
      { pose proof (pow2_pos (ey - u) ltac:(lia)). destruct sy; cbn [cond_Zopp] in Hay; nia. }
      assert (ey - u <= - u) by (apply pow2_le_inv; lia). lia. }
    unfold SFadd.
    pose proof (aligned_sum_units sx sy mx my ex ey u Hx Hy) as Hsum.
    set (S := cond_Zopp sx (Zpos (fst (shl_align mx ex (Z.min ex ey))))
              + cond_Zopp sy (Zpos (fst (shl_align my ey (Z.min ex ey))))) in *.
    rewrite <- Hsum in Hbig.
    assert (Hsum' : Z.abs (S * 2 ^ (Z.min ex ey - u)) <= (2 ^ 53 + 1) * 2 ^ (- u)).
    { rewrite Hsum. lia. }
    pose proof (pow2_pos (Z.min ex ey - u) ltac:(lia)) as Hpz.
    destruct S as [|p|p]; cbn [binary_normalize].
    + exfalso. lia.
    + destruct (binary_round_tie false p (Z.min ex ey) u) as [Hf Hv]; try lia.
      split; [exact Hf|]. rewrite Hv. cbn [cond_Zopp]. lia.
    + destruct (binary_round_tie true p (Z.min ex ey) u) as [Hf Hv]; try lia.
      split; [exact Hf|]. rewrite Hv. cbn [cond_Zopp]. lia.
Qed.

Lemma pow2Q_pos (e : Z) : (0 < 2 ^ e)%Q.
Proof. apply Qpower_0_lt. reflexivity. Qed.

Lemma dy_shift (m e u : Z) : u <= e -> (dy m e == dy (m * 2 ^ (e - u)) u)%Q.
Proof.
  intro H. unfold dy. rewrite inject_Z_mult, Zpower_Qpower by lia.
  rewrite <- Qmult_assoc, <- Qpower_plus by discriminate.
  replace (e - u + u) with e by lia. reflexivity.
Qed.

Lemma dy_le (a b u : Z) : (dy a u <= dy b u)%Q <-> a <= b.
Proof.
  unfold dy. rewrite Qmult_le_r by apply pow2Q_pos. now rewrite <- Zle_Qle.
Qed.

Lemma dy_lt (a b u : Z) : (dy a u < dy b u)%Q <-> a < b.
Proof.
  unfold dy. rewrite Qmult_lt_r by apply pow2Q_pos. now rewrite <- Zlt_Qlt.
Qed.

Lemma dy_plus (a b u : Z) : (dy a u + dy b u == dy (a + b) u)%Q.
Proof. unfold dy. rewrite inject_Z_plus. ring. Qed.

Lemma dy_mult (a b e e' : Z) : (dy a e * dy b e' == dy (a * b) (e + e'))%Q.
Proof.
  unfold dy. rewrite inject_Z_mult, Qpower_plus by discriminate. ring.
Qed.

Lemma dy_0 (K : Z) : (dy K 0 == inject_Z K)%Q.
Proof. unfold dy. change (2 ^ 0)%Q with 1%Q. ring. Qed.

Lemma cond_Zopp_mul (s : bool) (a b : Z) : cond_Zopp s (a * b) = cond_Zopp s a * b.
Proof. destruct s; cbn [cond_Zopp]; lia. Qed.

Lemma F2Q_units (u : Z) (x : spec_float) :
  fin_above u x -> (F2Q x == dy (units u x) u)%Q.
Proof.
  destruct x as [s|s| |s m e]; cbn [fin_above F2Q units]; try contradiction.
  - intros _. unfold dy. change (inject_Z 0) with 0%Q. ring.
  - intro H. rewrite cond_Zopp_mul. apply dy_shift, H.
Qed.

Lemma is_finite_fin_above (u : Z) (x : spec_float) :
  is_finite x = true -> u <= expo x -> fin_above u x.
Proof. destruct x; cbn; intros; try discriminate; auto. Qed.

Lemma fin_above_is_finite (u : Z) (x : spec_float) :
  fin_above u x -> is_finite x = true.
Proof. destruct x; cbn; intros; try contradiction; auto. Qed.

(** [x + y] rounded stays between representable bounds of the exact sum. *)
Lemma add_encl (x y : spec_float) (A B g : Z) :
  is_finite x = true -> is_finite y = true ->
  0 <= g <= 1074 -> - 2 ^ 53 <= A -> B <= 2 ^ 53 ->
  (dy A (- g) <= F2Q x + F2Q y <= dy B (- g))%Q ->
  is_finite (SFadd prec emax x y) = true
  /\ (dy A (- g) <= F2Q (SFadd prec emax x y) <= dy B (- g))%Q.
Proof.
  intros Hx Hy Hg HA HB Hencl.
  set (u := Z.min (-1074) (Z.min (expo x) (expo y))).
  assert (Hfx : fin_above u x) by (apply is_finite_fin_above; [exact Hx|lia]).
  assert (Hfy : fin_above u y) by (apply is_finite_fin_above; [exact Hy|lia]).
  rewrite (F2Q_units u x Hfx), (F2Q_units u y Hfy), dy_plus in Hencl.
  rewrite (dy_shift A (- g) u), (dy_shift B (- g) u), !dy_le in Hencl by lia.
  destruct (add_encl_units x y g u A B Hfx Hfy ltac:(lia) Hg HA HB Hencl) as [Hf Hb].
  split; [exact (fin_above_is_finite _ _ Hf)|].
  rewrite (F2Q_units u _ Hf), (dy_shift A (- g) u), (dy_shift B (- g) u), !dy_le by lia.
  exact Hb.
Qed.

(** The exact product formed by [SFmul] before rounding. *)
Lemma F2Q_exact_product (sx sy : bool) (mx my : positive) (ex ey : Z) :
  (F2Q (S754_finite (xorb sx sy) (mx * my) (ex + ey))
   == F2Q (S754_finite sx mx ex) * F2Q (S754_finite sy my ey))%Q.
Proof.
  cbn [F2Q]. rewrite dy_mult.
  replace (cond_Zopp (xorb sx sy) (Zpos (mx * my)))
    with (cond_Zopp sx (Zpos mx) * cond_Zopp sy (Zpos my)); [reflexivity|].
  destruct sx, sy; cbn [cond_Zopp xorb]; lia.
Qed.

(** [x * y] rounded stays between representable bounds of the exact
    product. *)
Lemma mul_encl (x y : spec_float) (A B g : Z) :
  is_finite x = true -> is_finite y = true ->
  0 <= g <= 1074 -> - 2 ^ 53 <= A -> B <= 2 ^ 53 ->
  (dy A (- g) <= F2Q x * F2Q y <= dy B (- g))%Q ->
  is_finite (SFmul prec emax x y) = true
  /\ (dy A (- g) <= F2Q (SFmul prec emax x y) <= dy B (- g))%Q.
Proof.
  intros Hx Hy Hg HA HB Hencl.
  destruct x as [sx|sx| |sx mx ex], y as [sy|sy| |sy my ey];
    try discriminate; cbn [SFmul];
    try (split; [reflexivity|]; cbn [F2Q] in Hencl |- *;
         rewrite ?Qmult_0_l, ?Qmult_0_r in Hencl; exact Hencl).
  rewrite <- F2Q_exact_product in Hencl.
  set (u := Z.min (ex + ey) (- g)).
  assert (Hf0 : fin_above u (S754_finite (xorb sx sy) (mx * my) (ex + ey))) by (cbn; lia).
  rewrite (F2Q_units u _ Hf0) in Hencl.
  rewrite (dy_shift A (- g) u), (dy_shift B (- g) u), !dy_le in Hencl by lia.
  cbn [units] in Hencl.
  destruct (binary_round_aux_encl (xorb sx sy) (mx * my) (ex + ey) g u A B
              Hg ltac:(lia) ltac:(lia) HA HB Hencl) as [Hf Hb].
  split; [exact (fin_above_is_finite _ _ Hf)|].
  rewrite (F2Q_units u _ Hf), (dy_shift A (- g) u), (dy_shift B (- g) u), !dy_le by lia.
  exact Hb.
Qed.

Lemma inject_Z_units (a u : Z) : u <= 0 -> (inject_Z a == dy (a * 2 ^ (- u)) u)%Q.
Proof.
  intro H. rewrite <- dy_0, (dy_shift _ 0 u) by lia. now rewrite Z.sub_0_l.
Qed.

(** Saturation at [2^53]. *)
Lemma add_saturates (x y : spec_float) :
  is_finite x = true -> is_finite y = true ->
  (inject_Z (- 2 ^ 53) <= F2Q x <= inject_Z (2 ^ 53))%Q ->
  (inject_Z (- 1) <= F2Q y <= inject_Z 1)%Q ->
  is_finite (SFadd prec emax x y) = true
  /\ (inject_Z (- 2 ^ 53) <= F2Q (SFadd prec emax x y) <= inject_Z (2 ^ 53))%Q.
Proof.
  intros Hx Hy Hbx Hby.
  set (u := Z.min (-1074) (Z.min (expo x) (expo y))).
  assert (Hfx : fin_above u x) by (apply is_finite_fin_above; [exact Hx|lia]).
  assert (Hfy : fin_above u y) by (apply is_finite_fin_above; [exact Hy|lia]).
  rewrite !(inject_Z_units _ u), (F2Q_units u x Hfx), !dy_le in Hbx by lia.
  rewrite !(inject_Z_units _ u), (F2Q_units u y Hfy), !dy_le in Hby by lia.
  destruct (add_saturates_units x y u Hfx Hfy ltac:(lia)) as [Hf Hb]; try lia.
  split; [exact (fin_above_is_finite _ _ Hf)|].
  rewrite !(inject_Z_units _ u), (F2Q_units u _ Hf), !dy_le by lia. lia.
Qed.

(* ------------------------------------------------------------------ *)
(** ** Executions of the loop nest                                     *)
(* ------------------------------------------------------------------ *)

Section Executions.

Variable sin cos : double -> double.
Variable n : Z.

Local Abbreviation stepn := (step sin cos n).
Local Abbreviation runn := (run sin cos n).
Local Abbreviation acc1 := (accumulate sin cos).

(** One row of the grid: the pairs the inner loop visits for a given [i]. *)
Local Abbreviation row a lo len := (map (pair a) (zseq lo len)).

Lemma run_add (k1 k2 : nat) (c : config) :
  runn (k1 + k2)%nat c = runn k2 (runn k1 c).
Proof.
  revert c; induction k1 as [|k1 IH]; intro c; simpl; [reflexivity|].
  apply IH.
Qed.

Lemma run_L19 (k : nat) (c : config) : pc c = L19 -> runn k c = c.
Proof.
  intro H; induction k as [|k IH]; simpl; [reflexivity|].
  unfold step. rewrite H. exact IH.
Qed.

(** The inner loop, from [j = lo] up to its last test. *)
Lemma inner_loop (len : nat) :
  forall a lo acc vis,
    lo + Z.of_nat len = n -> n <= INT_MAX ->
    runn len (Config L14 a lo acc vis)
    = Config L14 a n (fold_left acc1 (row a lo len) acc) (vis ++ row a lo len).
Proof.
  induction len as [|len IH]; intros a lo acc vis Hn Hmax.
  - simpl. rewrite app_nil_r. f_equal. lia.
  - cbn [run]. unfold step at 1. cbn [pc i j result visited].
    replace (lo <? n) with true by (symmetry; apply Z.ltb_lt; lia).
    unfold incr. replace (lo <? INT_MAX) with true by (symmetry; apply Z.ltb_lt; lia).
    rewrite IH by lia.
    cbn [zseq map fold_left]. rewrite <- app_assoc. reflexivity.
Qed.

(** One iteration of the outer loop: the test at line 13, the whole inner
    loop, and [i++]. *)
Lemma outer_iteration (a jj : Z) (acc : double) (vis : list (Z * Z)) :
  0 <= a < n -> n <= INT_MAX ->
  runn (S (S (Z.to_nat n))) (Config L13 a jj acc vis)
  = Config L13 (a + 1) n
      (fold_left acc1 (row a 0 (Z.to_nat n)) acc) (vis ++ row a 0 (Z.to_nat n)).
Proof.
  intros Ha Hmax.
  replace (S (S (Z.to_nat n))) with (1 + (Z.to_nat n + 1))%nat by lia.
  rewrite run_add. cbn [run]. unfold step at 1. cbn [pc i j result visited].
  replace (a <? n) with true by (symmetry; apply Z.ltb_lt; lia).
  rewrite run_add, inner_loop by lia.
  cbn [run]. unfold step. cbn [pc i j result visited].
  rewrite Z.ltb_irrefl. unfold incr.
  replace (a <? INT_MAX) with true by (symmetry; apply Z.ltb_lt; lia).
  reflexivity.
Qed.

(** [len] iterations of the outer loop, from [i = lo] up to its last
    test. *)
Lemma outer_loop (len : nat) :
  forall lo jj acc vis,
    0 <= lo -> lo + Z.of_nat len = n -> n <= INT_MAX ->
    runn (len * S (S (Z.to_nat n))) (Config L13 lo jj acc vis)
    = Config L13 n (match len with O => jj | S _ => n end)
        (fold_left acc1 (list_prod (zseq lo len) (zseq 0 (Z.to_nat n))) acc)
        (vis ++ list_prod (zseq lo len) (zseq 0 (Z.to_nat n))).
Proof.
  induction len as [|len IH]; intros lo jj acc vis Hlo Hn Hmax.
  - simpl. rewrite app_nil_r. f_equal. lia.
  - replace (S len * S (S (Z.to_nat n)))%nat
      with (S (S (Z.to_nat n)) + len * S (S (Z.to_nat n)))%nat by lia.
    rewrite run_add, outer_iteration by lia.
    rewrite IH by lia.
    cbn [zseq list_prod]. rewrite fold_left_app, <- app_assoc.
    destruct len; reflexivity.
Qed.

(** The whole execution: after [fuel_for n] transitions the program is at
    line 19, with the nested sum in [result] and the grid visited. *)
Lemma run_complete (fuel : nat) :
  in_range n -> (fuel_for n <= fuel)%nat ->
  runn fuel init
  = Config L19 (Z.max 0 n) (Z.max 0 n) (nested_sum sin cos n) (grid n).
Proof.
  intros [Hmin Hmax] Hfuel. unfold fuel_for in Hfuel.
  replace fuel with (fuel_for n + (fuel - fuel_for n))%nat
    by (unfold fuel_for; lia).
  rewrite run_add. rewrite (run_L19 (fuel - fuel_for n)); unfold fuel_for.
  - destruct (Z.leb_spec n 0) as [Hn|Hn].
    + cbn [run]. unfold step, init. cbn [pc i j result visited].
      replace (0 <? n) with false by (symmetry; apply Z.ltb_ge; lia).
      unfold nested_sum, grid.
      replace (Z.to_nat n) with O by lia. cbn.
      rewrite Z.max_l by lia. reflexivity.
    + replace (Z.to_nat (n * (n + 2) + 1))
        with (Z.to_nat n * S (S (Z.to_nat n)) + 1)%nat by lia.
      rewrite run_add. unfold init. rewrite outer_loop by lia.
      cbn [run]. unfold step. cbn [pc i j result visited].
      rewrite Z.ltb_irrefl. rewrite Z.max_r by lia.
      unfold nested_sum, grid.
      destruct (Z.to_nat n) eqn:E; [lia|]. reflexivity.
  - destruct (Z.leb_spec n 0) as [Hn|Hn].
    + cbn [run]. unfold step, init. cbn [pc i j result visited].
      replace (0 <? n) with false by (symmetry; apply Z.ltb_ge; lia).
      reflexivity.
    + replace (Z.to_nat (n * (n + 2) + 1))
        with (Z.to_nat n * S (S (Z.to_nat n)) + 1)%nat by lia.
      rewrite run_add. unfold init. rewrite outer_loop by lia.
      cbn [run]. unfold step. cbn [pc i j result visited].
      rewrite Z.ltb_irrefl. reflexivity.
Qed.

(** The counters stay in range along every execution. *)
Lemma step_counters_ok (c : config) :
  n <= INT_MAX -> counters_ok n c -> counters_ok n (stepn c).
Proof.
  intros Hmax (Hpc & Hi & Hj & Hin). unfold counters_ok, step.
  destruct (pc c) eqn:Epc; try contradiction.
  - destruct (Z.ltb_spec (i c) n) as [Hlt|Hge]; cbn [pc i j result visited].
    + repeat split; try discriminate; lia.
    + repeat split; try discriminate; lia.
  - specialize (Hin eq_refl).
    destruct (Z.ltb_spec (j c) n) as [Hlt|Hge]; unfold incr.
    + replace (j c <? INT_MAX) with true by (symmetry; apply Z.ltb_lt; lia).
      cbn [pc i j result visited]. repeat split; try discriminate; lia.
    + replace (i c <? INT_MAX) with true by (symmetry; apply Z.ltb_lt; lia).
      cbn [pc i j result visited]. repeat split; try discriminate; lia.
  - rewrite Epc. repeat split; try discriminate; lia.
Qed.

Lemma run_counters_ok (k : nat) (c : config) :
  n <= INT_MAX -> counters_ok n c -> counters_ok n (runn k c).
Proof.
  intro Hmax. revert c. induction k as [|k IH]; intros c Hc; simpl; [exact Hc|].
  apply IH, step_counters_ok; assumption.
Qed.

Lemma init_counters_ok : counters_ok n init.
Proof.
  unfold counters_ok, init; cbn. repeat split; try discriminate; lia.
Qed.

End Executions.

(** Membership in a run of consecutive integers. *)
Lemma in_zseq (len : nat) : forall lo x, In x (zseq lo len) <-> lo <= x < lo + Z.of_nat len.
Proof.
  induction len as [|len IH]; intros lo x; cbn [zseq In].
  - lia.
  - rewrite IH. lia.
Qed.

Lemma NoDup_zseq (len : nat) : forall lo, NoDup (zseq lo len).
Proof.
  induction len as [|len IH]; intro lo; cbn [zseq]; constructor.
  - rewrite in_zseq. lia.
  - apply IH.
Qed.

Lemma length_zseq (len : nat) : forall lo, length (zseq lo len) = len.
Proof.
  induction len as [|len IH]; intro lo; cbn [zseq length]; [reflexivity|].
  now rewrite IH.
Qed.

Lemma in_grid (n a b : Z) : In (a, b) (grid n) <-> 0 <= a < n /\ 0 <= b < n.
Proof.
  unfold grid. rewrite in_prod_iff, !in_zseq. lia.
Qed.

(* ------------------------------------------------------------------ *)
(** ** The contract of [compute_intensive]                             *)
(* ------------------------------------------------------------------ *)

Lemma parse_single_int_range (args : PyObject) (n : Z) :
  parse_single_int args = inr n -> in_range n.
Proof.
  unfold parse_single_int, in_range.
  destruct args as [| | | |[|[| z | | |] [|]]]; try discriminate.
  destruct (Z.leb_spec INT_MIN z), (Z.leb_spec z INT_MAX); cbn; try discriminate.
  intros [= <-]. lia.
Qed.

Lemma list_prod_flat_map {A B : Type} (l : list A) (l' : list B) :
  list_prod l l' = flat_map (fun a => map (pair a) l') l.
Proof.
  induction l as [|a l IH]; cbn [list_prod flat_map]; [reflexivity|].
  now rewrite IH.
Qed.

Lemma NoDup_map_pair {A B : Type} (a : A) (l : list B) :
  NoDup l -> NoDup (map (pair a) l).
Proof.
  induction 1 as [|b l Hb Hl IH]; cbn [map]; constructor; [|exact IH].
  rewrite in_map_iff. intros (b' & [= ->] & Hin). contradiction.
Qed.

Lemma NoDup_list_prod {A B : Type} (l : list A) (l' : list B) :
  NoDup l -> NoDup l' -> NoDup (list_prod l l').
Proof.
  intros Hl Hl'. induction Hl as [|a l Ha Hl IH]; cbn [list_prod]; [constructor|].
  apply NoDup_app; [now apply NoDup_map_pair|exact IH|].
  intros [a' b']. rewrite in_map_iff, in_prod_iff.
  intros (b & [= -> ->] & _) [Hin _]. contradiction.
Qed.

(** C1.  For a non-negative argument [n] the function returns the double
    obtained from [0.0] by adding [sin(i) * cos(j)] for the pairs of the
    [n]-by-[n] grid in [i]-major, [j]-minor order, every operation rounded to
    double precision; for [n = 2] this is
    [(((0.0 + s0*c0) + s0*c1) + s1*c0) + s1*c1]. *)
Theorem compute_intensive_nested_sum
  (sin cos : double -> double) (parse : PyObject -> PyErr + Z)
  (args : PyObject) (n : Z) (st : pystate) (fuel : nat) :
  parse args = inr n -> 0 <= n <= INT_MAX -> (fuel_for n <= fuel)%nat ->
  compute_intensive sin cos parse fuel args st
  = Returns (Some (PyFloat (nested_sum sin cos n))) st
  /\ grid n = flat_map (fun a => map (pair a) (zseq 0 (Z.to_nat n))) (zseq 0 (Z.to_nat n))
  /\ nested_sum sin cos 2
     = add (add (add (add zero
         (mul (sin (of_int 0)) (cos (of_int 0))))
         (mul (sin (of_int 0)) (cos (of_int 1))))
         (mul (sin (of_int 1)) (cos (of_int 0))))
         (mul (sin (of_int 1)) (cos (of_int 1))).
Proof.
  intros Hparse Hn Hfuel.
  split; [|split; [apply list_prod_flat_map|reflexivity]].
  unfold compute_intensive. rewrite Hparse.
  rewrite run_complete; [reflexivity| |assumption].
  unfold in_range, INT_MIN, INT_MAX in *. lia.
Qed.

Lemma compute_intensive_nested_sum_witness :
  parse_single_int (PyTuple [PyLong 3]) = inr 3
  /\ 0 <= 3 <= INT_MAX
  /\ (fuel_for 3 <= 16)%nat
  /\ compute_intensive table_sin table_cos parse_single_int 16
       (PyTuple [PyLong 3]) (PyState None)
     = Returns (Some (PyFloat (nested_sum table_sin table_cos 3))) (PyState None).
Proof.
  assert (Hp : parse_single_int (PyTuple [PyLong 3]) = inr 3) by reflexivity.
  assert (Hn : 0 <= 3 <= INT_MAX) by (unfold INT_MAX; lia).
  assert (Hf : (fuel_for 3 <= 16)%nat) by (vm_compute; lia).
  refine (conj Hp (conj Hn (conj Hf _))).
  exact (proj1 (compute_intensive_nested_sum table_sin table_cos parse_single_int
                  (PyTuple [PyLong 3]) 3 (PyState None) 16 Hp Hn Hf)).
Defined.

(** C3.  For [n <= 0] the test at line 13 fails at once: line 15 is never
    executed and the function returns exactly [0.0]. *)
Theorem compute_intensive_nonpositive
  (sin cos : double -> double) (parse : PyObject -> PyErr + Z)
  (args : PyObject) (n : Z) (st : pystate) (fuel : nat) :
  parse args = inr n -> n <= 0 -> (1 <= fuel)%nat ->
  compute_intensive sin cos parse fuel args st = Returns (Some (PyFloat zero)) st
  /\ compute_loop sin cos fuel n = Some zero
  /\ visited (run sin cos n fuel init) = [].
Proof.
  intros Hparse Hn Hfuel.
  assert (Hrun : run sin cos n fuel init = Config L19 0 0 zero []).
  { destruct fuel as [|fuel]; [lia|]. cbn [run]. unfold step, init.
    cbn [pc i j result visited].
    replace (0 <? n) with false by (symmetry; apply Z.ltb_ge; lia).
    apply run_L19. reflexivity. }
  unfold compute_intensive, compute_loop. rewrite Hparse, Hrun.
  repeat split.
Qed.

Lemma compute_intensive_nonpositive_witness :
  parse_single_int (PyTuple [PyLong (-7)]) = inr (-7)
  /\ -7 <= 0
  /\ compute_intensive table_sin table_cos parse_single_int 1
       (PyTuple [PyLong (-7)]) (PyState None)
     = Returns (Some (PyFloat zero)) (PyState None).
Proof.
  assert (Hp : parse_single_int (PyTuple [PyLong (-7)]) = inr (-7)) by reflexivity.
  assert (Hn : -7 <= 0) by lia.
  refine (conj Hp (conj Hn _)).
  exact (proj1 (compute_intensive_nonpositive table_sin table_cos parse_single_int
                  (PyTuple [PyLong (-7)]) (-7) (PyState None) 1 Hp Hn (le_n 1))).
Defined.

(** C6.  For every [n] an [int] can hold, the loop nest reaches line 19:
    [fuel_for n] transitions suffice, at most [n^2 + 2n + 1] of them, and any
    larger budget gives the same value. *)
Theorem compute_loop_terminates
  (sin cos : double -> double) (n : Z) :
  in_range n ->
  pc (run sin cos n (fuel_for n) init) = L19
  /\ (forall fuel, (fuel_for n <= fuel)%nat ->
        compute_loop sin cos fuel n = Some (nested_sum sin cos n))
  /\ Z.of_nat (fuel_for n) <= n * n + 2 * Z.abs n + 1.
Proof.
  intro Hn. split; [|split].
  - rewrite run_complete by (trivial; lia). reflexivity.
  - intros fuel Hfuel. unfold compute_loop.
    rewrite run_complete by assumption. reflexivity.
  - unfold fuel_for. destruct (Z.leb_spec n 0); nia.
Qed.

Lemma compute_loop_terminates_witness :
  in_range INT_MAX
  /\ pc (run table_sin table_cos INT_MAX (fuel_for INT_MAX) init) = L19.
Proof.
  assert (Hn : in_range INT_MAX) by (unfold in_range, INT_MIN, INT_MAX; lia).
  exact (conj Hn (proj1 (compute_loop_terminates table_sin table_cos INT_MAX Hn))).
Defined.

(** C9, as the code has it.  For every [n] an [int] can hold, at every
    program point of the execution no increment has overflowed, both
    counters lie between [0] and [max 0 n] (so they never exceed a
    non-negative [n]), and the increment about to be executed is defined,
    also for [n = INT_MAX]; line 15 is executed once at each pair of the
    [n]-by-[n] grid, in order, and nowhere else. *)
Theorem loop_counters_in_range
  (sin cos : double -> double) (n : Z) :
  in_range n ->
  (forall k, let c := run sin cos n k init in
     pc c <> UB
     /\ 0 <= i c <= Z.max 0 n
     /\ 0 <= j c <= Z.max 0 n
     /\ (pc c = L14 -> incr (if j c <? n then j c else i c) <> None))
  /\ (forall k, (fuel_for n <= k)%nat -> visited (run sin cos n k init) = grid n)
  /\ (forall a b, In (a, b) (grid n) <-> 0 <= a < n /\ 0 <= b < n)
  /\ NoDup (grid n).
Proof.
  intros Hn. split; [|split; [|split]].
  - intros k c.
    destruct (run_counters_ok sin cos n k init (proj2 Hn) (init_counters_ok n))
      as (Hpc & Hi & Hj & Hin).
    fold c in Hpc, Hi, Hj, Hin. repeat split; try assumption; try lia.
    intro H14. specialize (Hin H14). unfold incr.
    destruct Hn as [_ Hmax].
    destruct (Z.ltb_spec (j c) n).
    + replace (j c <? INT_MAX) with true by (symmetry; apply Z.ltb_lt; lia).
      discriminate.
    + replace (i c <? INT_MAX) with true by (symmetry; apply Z.ltb_lt; lia).
      discriminate.
  - intros k Hk. rewrite run_complete by assumption. reflexivity.
  - intros a b. apply in_grid.
  - unfold grid. apply NoDup_list_prod; apply NoDup_zseq.
Qed.

Lemma loop_counters_in_range_witness :
  in_range INT_MAX
  /\ (forall k, (fuel_for INT_MAX <= k)%nat ->
        visited (run table_sin table_cos INT_MAX k init) = grid INT_MAX).
Proof.
  assert (Hn : in_range INT_MAX) by (unfold in_range, INT_MIN, INT_MAX; lia).
  exact (conj Hn (proj1 (proj2 (loop_counters_in_range table_sin table_cos INT_MAX Hn)))).
Defined.

(** C9 as stated fails for a negative [n]: [i] starts at [0], which exceeds
    [n = -1], although the loops then do nothing. *)
Lemma counter_exceeds_negative_n :
  in_range (-1)
  /\ ~ (forall k, i (run table_sin table_cos (-1) k init) <= -1).
Proof.
  split; [unfold in_range, INT_MIN, INT_MAX; lia|].
  intro H. specialize (H O). cbn in H. lia.
Qed.


(** C5.  With [sin(0) = 0.0] and [cos(0) = 1.0], as Annex F of the C
    standard prescribes, [compute_intensive(1)] returns exactly [0.0], the
    value of [sin(0) * cos(0) = 0.0 * 1.0]. *)
Theorem compute_intensive_one
  (sin cos : double -> double) (parse : PyObject -> PyErr + Z)
  (args : PyObject) (st : pystate) (fuel : nat) :
  sin zero = zero -> cos zero = one ->
  parse args = inr 1 -> (4 <= fuel)%nat ->
  compute_intensive sin cos parse fuel args st = Returns (Some (PyFloat zero)) st
  /\ mul (sin (of_int 0)) (cos (of_int 0)) = mul zero one
  /\ mul zero one = zero.
Proof.
  intros Hsin Hcos Hparse Hfuel.
  assert (Hterm : mul (sin (of_int 0)) (cos (of_int 0)) = mul zero one).
  { change (of_int 0) with zero. now rewrite Hsin, Hcos. }
  split; [|split; [exact Hterm|reflexivity]].
  unfold compute_intensive. rewrite Hparse.
  rewrite run_complete;
    [|unfold in_range, INT_MIN, INT_MAX; lia|exact Hfuel].
  cbn [pc result]. unfold PyFloat_FromDouble. do 3 f_equal.
  change (nested_sum sin cos 1)
    with (add zero (mul (sin (of_int 0)) (cos (of_int 0)))).
  rewrite Hterm. reflexivity.
Qed.

Lemma compute_intensive_one_witness :
  table_sin zero = zero /\ table_cos zero = one
  /\ parse_single_int (PyTuple [PyLong 1]) = inr 1
  /\ compute_intensive table_sin table_cos parse_single_int 4
       (PyTuple [PyLong 1]) (PyState None)
     = Returns (Some (PyFloat zero)) (PyState None).
Proof.
  refine (conj eq_refl (conj eq_refl (conj eq_refl _))).
  exact (proj1 (compute_intensive_one table_sin table_cos parse_single_int
                  (PyTuple [PyLong 1]) (PyState None) 4
                  eq_refl eq_refl eq_refl (le_n 4))).
Defined.






(* ------------------------------------------------------------------ *)
(** ** The accumulator stays finite                                    *)
(* ------------------------------------------------------------------ *)

Lemma bounded_by_mono (K K' : Z) (x : double) :
  K <= K' -> bounded_by K x -> bounded_by K' x.
Proof.
  intros H [Hf [Hlo Hhi]]. split; [exact Hf|].
  assert (inject_Z K <= inject_Z K')%Q by (rewrite <- Zle_Qle; exact H).
  assert (inject_Z (- K') <= inject_Z (- K))%Q by (rewrite <- Zle_Qle; lia).
  split; lra.
Qed.

Lemma bounded_by_zero (K : Z) : 0 <= K -> bounded_by K zero.
Proof.
  intro H. split; [reflexivity|]. cbn [F2Q zero].
  change 0%Q with (inject_Z 0). rewrite <- !Zle_Qle. lia.
Qed.

(** The product of two doubles of magnitude at most 1 has magnitude at most
    1. *)
Lemma mul_bounded_by_1 (x y : double) :
  bounded_by 1 x -> bounded_by 1 y -> bounded_by 1 (mul x y).
Proof.
  intros [Hfx [Hxl Hxh]] [Hfy [Hyl Hyh]].
  change (inject_Z (- (1))) with (- (1))%Q in *. change (inject_Z 1) with 1%Q in *.
  destruct (mul_encl x y (-1) 1 0 Hfx Hfy) as [Hf Hb]; try lia.
  - change (- 0) with 0. rewrite !dy_0.
    change (inject_Z (-1)) with (- (1))%Q. change (inject_Z 1) with 1%Q.
    split; nra.
  - change (- 0) with 0 in Hb. rewrite !dy_0 in Hb.
    split; [exact Hf|exact Hb].
Qed.

(** One more term of magnitude at most 1: the bound grows by 1, and stays at
    [2^53] once it has reached it. *)
Lemma add_bounded_by (c : Z) (acc t : double) :
  0 <= c ->
  bounded_by (Z.min c (2 ^ 53)) acc -> bounded_by 1 t ->
  bounded_by (Z.min (c + 1) (2 ^ 53)) (add acc t).
Proof.
  intros Hc [Hfa [Hal Hah]] [Hft [Htl Hth]].
  destruct (Z.le_gt_cases (c + 1) (2 ^ 53)) as [Hlow|Hsat].
  - rewrite Z.min_l in Hal, Hah by lia. rewrite Z.min_l by lia.
    destruct (add_encl acc t (- (c + 1)) (c + 1) 0 Hfa Hft) as [Hf Hb]; try lia.
    + change (- 0) with 0. rewrite !dy_0.
      rewrite Z.opp_add_distr, !inject_Z_plus. split; lra.
    + change (- 0) with 0 in Hb. rewrite !dy_0 in Hb. split; [exact Hf|exact Hb].
  - rewrite Z.min_r in Hal, Hah by lia. rewrite Z.min_r by lia.
    apply add_saturates; try assumption; split; assumption.
Qed.

Section Accumulator.

Variable sin cos : double -> double.
Variable n : Z.
Hypothesis n_max : n <= INT_MAX.
Hypothesis libm_range : libm_in_unit_range sin cos n.

Lemma term_bounded_by_1 (a b : Z) :
  0 <= a < n -> 0 <= b < n -> bounded_by 1 (term sin cos a b).
Proof.
  intros Ha Hb. unfold term.
  apply mul_bounded_by_1; [apply (libm_range a Ha)|apply (libm_range b Hb)].
Qed.

Lemma step_accumulator_ok (c : config) :
  accumulator_ok n c -> accumulator_ok n (step sin cos n c).
Proof.
  intros (Hc & Hcount & Hacc).
  split; [apply step_counters_ok; assumption|].
  destruct Hc as (Hpc & Hi & Hj & Hin).
  unfold step. destruct (pc c) eqn:Epc; try contradiction.
  - destruct (Z.ltb_spec (i c) n); cbn [pc i j result visited];
      (split; [lia|exact Hacc]).
  - specialize (Hin eq_refl).
    destruct (Z.ltb_spec (j c) n) as [Hlt|Hge]; unfold incr.
    + replace (j c <? INT_MAX) with true by (symmetry; apply Z.ltb_lt; lia).
      cbn [pc i j result visited].
      rewrite length_app. cbn [length].
      replace (Z.of_nat (length (visited c) + 1)) with (Z.of_nat (length (visited c)) + 1) by lia.
      split; [lia|].
      unfold accumulate. cbn [fst snd].
      apply add_bounded_by; [lia|exact Hacc|].
      apply term_bounded_by_1; lia.
    + replace (i c <? INT_MAX) with true by (symmetry; apply Z.ltb_lt; lia).
      cbn [pc i j result visited]. split; [nia|exact Hacc].
  - rewrite Epc. split; [exact Hcount|exact Hacc].
Qed.

Lemma run_accumulator_ok (k : nat) (c : config) :
  accumulator_ok n c -> accumulator_ok n (run sin cos n k c).
Proof.
  revert c. induction k as [|k IH]; intros c Hc; cbn [run]; [exact Hc|].
  apply IH, step_accumulator_ok, Hc.
Qed.

Lemma init_accumulator_ok : accumulator_ok n init.
Proof.
  split; [apply init_counters_ok|]. cbn. split; [reflexivity|].
  apply (bounded_by_zero 0). lia.
Qed.

Lemma accumulator_ok_bound (c : config) :
  accumulator_ok n c -> bounded_by (n * n) (result c).
Proof.
  intros ((Hpc & Hi & Hj & Hin) & Hcount & Hacc).
  eapply bounded_by_mono; [|exact Hacc].
  destruct (pc c); try specialize (Hin eq_refl); nia.
Qed.

End Accumulator.

Lemma sin_ref_bounded_by_1 (z : Z) : bounded_by 1 (sin_ref z).
Proof.
  assert (E : z = 1 \/ z = 2 \/ z = 3 \/ sin_ref z = zero).
  { destruct z as [|[[p|p|]|[p|p|]|]|p]; auto. }
  destruct E as [-> | [-> | [-> | ->]]];
    (split; [reflexivity|split; unfold Qle; vm_compute; discriminate]).
Qed.

Lemma cos_ref_bounded_by_1 (z : Z) : bounded_by 1 (cos_ref z).
Proof.
  assert (E : z = 1 \/ z = 2 \/ z = 3 \/ cos_ref z = one).
  { destruct z as [|[[p|p|]|[p|p|]|]|p]; auto. }
  destruct E as [-> | [-> | [-> | ->]]];
    (split; [reflexivity|split; unfold Qle; vm_compute; discriminate]).
Qed.

Lemma table_in_unit_range (n : Z) : libm_in_unit_range table_sin table_cos n.
Proof.
  intros k _. split; [apply sin_ref_bounded_by_1|apply cos_ref_bounded_by_1].
Qed.

(** C8.  For every [n] an [int] can hold, and a libm whose [sin] and [cos]
    are finite and of magnitude at most 1 on the integers below [n], the
    accumulator is at every program point a finite double of magnitude at
    most [n^2]; so is the value returned, which is neither an infinity nor a
    NaN. *)
Theorem accumulator_stays_finite
  (sin cos : double -> double) (n : Z) :
  in_range n -> libm_in_unit_range sin cos n ->
  (forall fuel,
     is_finite (result (run sin cos n fuel init)) = true
     /\ (Qabs (F2Q (result (run sin cos n fuel init))) <= inject_Z (n * n))%Q)
  /\ (forall fuel, (fuel_for n <= fuel)%nat ->
        exists r, compute_loop sin cos fuel n = Some r
                  /\ is_finite r = true
                  /\ (Qabs (F2Q r) <= inject_Z (n * n))%Q).
Proof.
  intros Hn Hlibm.
  assert (H : forall fuel, bounded_by (n * n) (result (run sin cos n fuel init))).
  { intro fuel. apply (accumulator_ok_bound n).
    apply run_accumulator_ok; [apply Hn|exact Hlibm|apply init_accumulator_ok]. }
  assert (H' : forall fuel,
             is_finite (result (run sin cos n fuel init)) = true
             /\ (Qabs (F2Q (result (run sin cos n fuel init))) <= inject_Z (n * n))%Q).
  { intro fuel. destruct (H fuel) as [Hf [Hlo Hhi]]. split; [exact Hf|].
    apply Qabs_Qle_condition. rewrite <- inject_Z_opp. split; assumption. }
  split; [exact H'|].
  intros fuel Hfuel. exists (nested_sum sin cos n).
  pose proof (H' fuel) as Hr. unfold compute_loop.
  rewrite run_complete in Hr |- * by assumption.
  cbn [pc result] in Hr |- *. split; [reflexivity|exact Hr].
Qed.

Lemma accumulator_stays_finite_witness :
  in_range INT_MAX /\ libm_in_unit_range table_sin table_cos INT_MAX
  /\ (forall fuel,
        is_finite (result (run table_sin table_cos INT_MAX fuel init)) = true
        /\ (Qabs (F2Q (result (run table_sin table_cos INT_MAX fuel init)))
            <= inject_Z (INT_MAX * INT_MAX))%Q).
Proof.
  assert (Hn : in_range INT_MAX) by (unfold in_range, INT_MIN, INT_MAX; lia).
  refine (conj Hn (conj (table_in_unit_range INT_MAX) _)).
  exact (proj1 (accumulator_stays_finite table_sin table_cos INT_MAX Hn
                  (table_in_unit_range INT_MAX))).
Defined.
(* ------------------------------------------------------------------ *)
(** ** Enclosures of the floating-point sum                             *)
(* ------------------------------------------------------------------ *)

Lemma ival_add_sound (g : Z) (I J : Z * Z) (x y : double) :
  0 <= g <= 1074 -> ival_ok (ival_add I J) = true ->
  contains g I x -> contains g J y -> contains g (ival_add I J) (add x y).
Proof.
  intros Hg Hok [Hfx [Hxl Hxh]] [Hfy [Hyl Hyh]].
  apply andb_true_iff in Hok as [Hlo Hhi].
  apply Z.leb_le in Hlo, Hhi.
  unfold contains, add.
  apply add_encl; try assumption.
  unfold ival_add; cbn [fst snd]. rewrite <- !dy_plus. split; lra.
Qed.

(** A product lies between the least and the greatest of the products of the
    ends. *)
Lemma Qmult_between (a b c d x y m : Q) :
  (a <= x <= b -> c <= y <= d ->
   m <= a * c -> m <= a * d -> m <= b * c -> m <= b * d ->
   m <= x * y)%Q.
Proof.
  intros [Hxa Hxb] [Hyc Hyd] H1 H2 H3 H4.
  destruct (Qlt_le_dec y 0) as [Hy|Hy].
  - (* y < 0: x * y >= b * y *)
    assert (b * y <= x * y)%Q by nra.
    destruct (Qlt_le_dec b 0) as [Hb|Hb]; nra.
  - assert (a * y <= x * y)%Q by nra.
    destruct (Qlt_le_dec a 0) as [Ha|Ha]; nra.
Qed.

Lemma Qmult_between_up (a b c d x y m : Q) :
  (a <= x <= b -> c <= y <= d ->
   a * c <= m -> a * d <= m -> b * c <= m -> b * d <= m ->
   x * y <= m)%Q.
Proof.
  intros [Hxa Hxb] [Hyc Hyd] H1 H2 H3 H4.
  destruct (Qlt_le_dec y 0) as [Hy|Hy].
  - assert (x * y <= a * y)%Q by nra.
    destruct (Qlt_le_dec a 0) as [Ha|Ha]; nra.
  - assert (x * y <= b * y)%Q by nra.
    destruct (Qlt_le_dec b 0) as [Hb|Hb]; nra.
Qed.

Lemma ival_mul_sound (g : Z) (I J : Z * Z) (x y : double) :
  0 <= g <= 1074 -> ival_ok (ival_mul g I J) = true ->
  contains g I x -> contains g J y -> contains g (ival_mul g I J) (mul x y).
Proof.
  intros Hg Hok [Hfx Hx] [Hfy Hy].
  apply andb_true_iff in Hok as [Hlo Hhi].
  apply Z.leb_le in Hlo, Hhi.
  unfold contains, mul.
  apply mul_encl; try assumption.
  destruct I as [a b], J as [c d]. unfold ival_mul in *. cbn [fst snd] in *.
  set (lo := Z.min (Z.min (a * c) (a * d)) (Z.min (b * c) (b * d))) in *.
  set (hi := Z.max (Z.max (a * c) (a * d)) (Z.max (b * c) (b * d))) in *.
  pose proof (pow2_pos g ltac:(lia)) as Hp.
  (* outward rounding *)
  assert (Hlo' : (dy (lo / 2 ^ g) (- g) <= dy lo (- g + - g))%Q).
  { rewrite (dy_shift _ (- g) (- g + - g)) by lia. apply dy_le.
    replace (- g - (- g + - g)) with g by lia.
    rewrite Z.mul_comm. apply Z.mul_div_le. lia. }
  assert (Hhi' : (dy hi (- g + - g) <= dy (- (- hi / 2 ^ g)) (- g))%Q).
  { rewrite (dy_shift (- (- hi / 2 ^ g)) (- g) (- g + - g)) by lia. apply dy_le.
    replace (- g - (- g + - g)) with g by lia.
    pose proof (Z.mul_div_le (- hi) (2 ^ g) ltac:(lia)). lia. }
  assert (Hc : forall p q, (dy p (- g) * dy q (- g) == dy (p * q) (- g + - g))%Q)
    by (intros; apply dy_mult).
  split.
  - eapply Qle_trans; [exact Hlo'|].
    apply (Qmult_between (dy a (- g)) (dy b (- g)) (dy c (- g)) (dy d (- g)));
      try assumption; rewrite Hc; apply dy_le; unfold lo; lia.
  - eapply Qle_trans; [|exact Hhi'].
    apply (Qmult_between_up (dy a (- g)) (dy b (- g)) (dy c (- g)) (dy d (- g)));
      try assumption; rewrite Hc; apply dy_le; unfold hi; lia.
Qed.

Lemma ival_fold_None (g : Z) (Is Ic : Z -> Z * Z) (l : list (Z * Z)) :
  fold_left (ival_accumulate g Is Ic) l None = None.
Proof. induction l as [|p l IH]; [reflexivity|exact IH]. Qed.

(** The interval run encloses the floating-point run. *)
Lemma ival_fold_sound (g : Z) (Is Ic : Z -> Z * Z) (sin cos : double -> double)
  (l : list (Z * Z)) :
  0 <= g <= 1074 ->
  (forall p, In p l ->
     contains g (Is (fst p)) (sin (of_int (fst p)))
     /\ contains g (Ic (snd p)) (cos (of_int (snd p)))) ->
  forall A acc I,
    contains g A acc ->
    fold_left (ival_accumulate g Is Ic) l (Some A) = Some I ->
    contains g I (fold_left (accumulate sin cos) l acc).
Proof.
  intros Hg. induction l as [|p l IH]; intros Hl A acc I HA Hfold; cbn [fold_left] in *.
  - injection Hfold as <-. exact HA.
  - destruct (ival_accumulate g Is Ic (Some A) p) as [S|] eqn:E;
      [|rewrite ival_fold_None in Hfold; discriminate].
    unfold ival_accumulate in E.
    destruct (ival_ok (ival_mul g (Is (fst p)) (Ic (snd p)))
              && ival_ok (ival_add A (ival_mul g (Is (fst p)) (Ic (snd p))))) eqn:Hok;
      [|discriminate].
    injection E as <-.
    apply andb_true_iff in Hok as [HokT HokS].
    eapply IH; [intros q Hq; apply Hl; right; exact Hq| |exact Hfold].
    unfold accumulate, term.
    apply ival_add_sound; [exact Hg|exact HokS|exact HA|].
    destruct (Hl p (or_introl eq_refl)) as [Hs Hc].
    apply ival_mul_sound; assumption.
Qed.

Lemma ival_nested_sum_sound (g : Z) (Is Ic : Z -> Z * Z) (sin cos : double -> double)
  (n : Z) (I : Z * Z) :
  0 <= g <= 1074 ->
  (forall k, 0 <= k < n ->
     contains g (Is k) (sin (of_int k)) /\ contains g (Ic k) (cos (of_int k))) ->
  ival_nested_sum g Is Ic n = Some I ->
  contains g I (nested_sum sin cos n).
Proof.
  intros Hg Hlibm Hrun.
  apply (ival_fold_sound g Is Ic sin cos (grid n) Hg) with (A := (0, 0)); [| |exact Hrun].
  - intros [a b] Hin. apply in_grid in Hin. cbn [fst snd].
    split; [apply (Hlibm a), Hin|apply (Hlibm b), Hin].
  - split; [reflexivity|]. cbn [fst snd F2Q zero]. unfold dy.
    change (inject_Z 0) with 0%Q. split; lra.
Qed.

Lemma ival_around_sound (q : Q) (x : double) :
  is_finite x = true -> (Qabs (F2Q x - q) <= 1 # 100)%Q ->
  contains 40 (ival_around q) x.
Proof.
  intros Hf Hq. split; [exact Hf|].
  apply Qabs_diff_Qle_condition in Hq. destruct Hq as [Hlo Hhi].
  unfold ival_around, dy; cbn [fst snd].
  pose proof (Qfloor_le ((q - (1 # 100)) * 2 ^ 40)) as Hfl.
  pose proof (Qle_ceiling ((q + (1 # 100)) * 2 ^ 40)) as Hce.
  set (a := inject_Z (Qfloor ((q - (1 # 100)) * 2 ^ 40))) in *.
  set (b := inject_Z (Qceiling ((q + (1 # 100)) * 2 ^ 40))) in *.
  change (2 ^ 40)%Q with (1099511627776 # 1)%Q in *.
  change (2 ^ (- (40)))%Q with (1 # 1099511627776)%Q.
  split; lra.
Qed.

(* ------------------------------------------------------------------ *)
(** ** Libm against the exact sine and cosine                          *)
(* ------------------------------------------------------------------ *)

Lemma Zfact_pos (n : nat) : 0 < Zfact n.
Proof. induction n as [|n IH]; cbn [Zfact]; lia. Qed.

Lemma INR_fact (n : nat) : INR (fact n) = IZR (Zfact n).
Proof.
  induction n as [|n IH]; [reflexivity|].
  change (fact (S n)) with (S n * fact n)%nat.
  rewrite mult_INR, IH, INR_IZR_INZ. cbn [Zfact]. now rewrite mult_IZR.
Qed.

Lemma Q2R_inject_Z (z : Z) : Q2R (inject_Z z) = IZR z.
Proof. unfold Q2R, inject_Z; cbn. rewrite Rinv_1. apply Rmult_1_r. Qed.

Lemma Q2R_Qpow (a : Q) (k : nat) : Q2R (Qpow a k) = (Q2R a ^ k)%R.
Proof.
  induction k as [|k IH]; cbn [Qpow pow].
  - unfold Q2R; cbn. Lra.lra.
  - now rewrite Q2R_mult, IH.
Qed.

Lemma Q2R_minus_one : Q2R (- (1)) = (-1)%R.
Proof.
  rewrite Q2R_opp. change 1%Q with (inject_Z 1). now rewrite Q2R_inject_Z.
Qed.

Lemma Q2R_sin_term (a : Q) (i : nat) :
  Q2R (sin_term_Q a i) = sin_term (Q2R a) i.
Proof.
  unfold sin_term_Q, sin_term.
  rewrite Q2R_mult, Q2R_div, !Q2R_Qpow, Q2R_minus_one, Q2R_inject_Z, INR_fact.
  - reflexivity.
  - intro H. pose proof (Zfact_pos (2 * i + 1)).
    unfold Qeq, inject_Z in H; cbn [Qnum Qden] in H. lia.
Qed.

Lemma Q2R_cos_term (a : Q) (i : nat) :
  Q2R (cos_term_Q a i) = cos_term (Q2R a) i.
Proof.
  unfold cos_term_Q, cos_term.
  rewrite Q2R_mult, Q2R_div, !Q2R_Qpow, Q2R_minus_one, Q2R_inject_Z, INR_fact.
  - reflexivity.
  - intro H. pose proof (Zfact_pos (2 * i)).
    unfold Qeq, inject_Z in H; cbn [Qnum Qden] in H. lia.
Qed.

Lemma Q2R_Qsum (f : nat -> Q) (g : nat -> R) (n : nat) :
  (forall i, Q2R (f i) = g i) -> Q2R (Qsum f n) = sum_f_R0 g n.
Proof.
  intro H. induction n as [|n IH]; cbn [Qsum sum_f_R0]; [apply H|].
  now rewrite Q2R_plus, IH, H.
Qed.

(** Enclosures of the exact sine and cosine by Taylor polynomials. *)
Lemma sin_enclosed (a : Q) (n : nat) :
  (0 <= a)%Q -> (a <= 4)%Q ->
  (Q2R (sin_approx_Q a (2 * n + 1)) <= sin (Q2R a)
   <= Q2R (sin_approx_Q a (2 * (n + 1))))%R.
Proof.
  intros H0 H4. unfold sin_approx_Q.
  rewrite !(Q2R_Qsum _ (sin_term (Q2R a))) by apply Q2R_sin_term.
  apply pre_sin_bound.
  - apply Qle_Rle in H0. unfold Q2R in H0 at 1; cbn in H0. Lra.lra.
  - apply Qle_Rle in H4. unfold Q2R in H4 at 2; cbn in H4. Lra.lra.
Qed.

Lemma cos_enclosed (a : Q) (n : nat) :
  (- (2) <= a)%Q -> (a <= 2)%Q ->
  (Q2R (cos_approx_Q a (2 * n + 1)) <= cos (Q2R a)
   <= Q2R (cos_approx_Q a (2 * (n + 1))))%R.
Proof.
  intros H0 H2. unfold cos_approx_Q.
  rewrite !(Q2R_Qsum _ (cos_term (Q2R a))) by apply Q2R_cos_term.
  apply pre_cos_bound.
  - apply Qle_Rle in H0. unfold Q2R in H0 at 1; cbn in H0. Lra.lra.
  - apply Qle_Rle in H2. unfold Q2R in H2 at 2; cbn in H2. Lra.lra.
Qed.

Lemma Q2R_Qred (q : Q) : Q2R (Qred q) = Q2R q.
Proof. apply Qeq_eqR, Qred_correct. Qed.

Lemma real_sin_enclosed (k : Z) :
  0 <= k < 4 -> (Q2R (sin_lo k) <= sin (IZR k) <= Q2R (sin_hi k))%R.
Proof.
  intro Hk.
  assert (E : k = 0 \/ k = 1 \/ k = 2 \/ k = 3) by lia.
  destruct E as [-> | [-> | [-> | ->]]].
  - rewrite sin_0. unfold sin_lo, sin_hi.
    change 0%Q with (inject_Z 0). rewrite Q2R_inject_Z. Lra.lra.
  - unfold sin_lo, sin_hi. rewrite !Q2R_Qred, <- (Q2R_inject_Z 1).
    apply (sin_enclosed (inject_Z 1) 9); unfold Qle; cbn; lia.
  - unfold sin_lo, sin_hi. rewrite !Q2R_Qred, <- (Q2R_inject_Z 2).
    apply (sin_enclosed (inject_Z 2) 9); unfold Qle; cbn; lia.
  - unfold sin_lo, sin_hi. rewrite !Q2R_Qred, <- (Q2R_inject_Z 3).
    apply (sin_enclosed (inject_Z 3) 9); unfold Qle; cbn; lia.
Qed.

Lemma real_cos_enclosed (k : Z) :
  0 <= k < 4 -> (Q2R (cos_lo k) <= cos (IZR k) <= Q2R (cos_hi k))%R.
Proof.
  intro Hk.
  assert (E : k = 0 \/ k = 1 \/ k = 2 \/ k = 3) by lia.
  destruct E as [-> | [-> | [-> | ->]]].
  - rewrite cos_0. unfold cos_lo, cos_hi.
    change 1%Q with (inject_Z 1). rewrite Q2R_inject_Z. Lra.lra.
  - unfold cos_lo, cos_hi. rewrite !Q2R_Qred, <- (Q2R_inject_Z 1).
    apply (cos_enclosed (inject_Z 1) 9); unfold Qle; cbn; lia.
  - unfold cos_lo, cos_hi. rewrite !Q2R_Qred, <- (Q2R_inject_Z 2).
    apply (cos_enclosed (inject_Z 2) 9); unfold Qle; cbn; lia.
  - unfold cos_lo, cos_hi. rewrite !Q2R_Qred.
    destruct (sin_enclosed (3 # 2) 9) as [Hl Hh]; [unfold Qle; cbn; lia ..|].
    change (2 * 9 + 1)%nat with 19%nat in Hl. change (2 * (9 + 1))%nat with 20%nat in Hh.
    assert (H0 : (0 <= Q2R (sin_approx_Q (3 # 2) 19))%R).
    { change 0%R with (IZR 0). rewrite <- (Q2R_inject_Z 0). apply Qle_Rle.
      unfold Qle. vm_compute. discriminate. }
    assert (E3 : IZR 3 = (2 * Q2R (3 # 2))%R).
    { unfold Q2R; cbn. Lra.lra. }
    rewrite E3, cos_2a_sin.
    rewrite !Q2R_minus, !Q2R_mult.
    change 1%Q with (inject_Z 1). change 2%Q with (inject_Z 2).
    rewrite !Q2R_inject_Z.
    set (s := sin (Q2R (3 # 2))) in *.
    set (l := Q2R (sin_approx_Q (3 # 2) 19)) in *.
    set (h := Q2R (sin_approx_Q (3 # 2) 20)) in *.
    split; Lra.nra.
Qed.

Lemma Rabs_le_inv (a b : R) : (Rabs a <= b -> - b <= a <= b)%R.
Proof.
  unfold Rabs. destruct (Rcase_abs a); intro H; split; Lra.lra.
Qed.

Lemma Q2R_9_1000 : Q2R (9 # 1000) = (9 / 1000)%R.
Proof. unfold Q2R; cbn. Lra.lra. Qed.

(** A double within [9/1000] of a real that lies between two rationals is
    within [1/100] of any rational within [1/1000] of both. *)
Lemma near_decimal (x : R) (lo hi dec : Q) (v : double) :
  (Q2R lo <= x <= Q2R hi)%R ->
  (dec - (1 # 1000) <= lo)%Q -> (hi <= dec + (1 # 1000))%Q ->
  (Rabs (F2R v - x) <= 9 / 1000)%R ->
  (Qabs (F2Q v - dec) <= 1 # 100)%Q.
Proof.
  intros [Hlo Hhi] Hdl Hdh Hv. apply Rabs_le_inv in Hv. unfold F2R in Hv.
  apply Qabs_diff_Qle_condition.
  apply Qle_Rle in Hdl, Hdh.
  rewrite Q2R_minus in Hdl. rewrite Q2R_plus in Hdh.
  assert (E : Q2R (1 # 1000) = (1 / 1000)%R) by (unfold Q2R; cbn; Lra.lra).
  assert (E' : Q2R (1 # 100) = (1 / 100)%R) by (unfold Q2R; cbn; Lra.lra).
  rewrite E in Hdl, Hdh.
  split; apply Rle_Qle; rewrite ?Q2R_minus, ?Q2R_plus, E'; Lra.lra.
Qed.

Lemma accurate_near_decimals (sin_d cos_d : double -> double) :
  libm_accurate sin_d cos_d -> libm_near_decimals sin_d cos_d.
Proof.
  intros H k Hk. destruct (H k Hk) as [(_ & Hfs & Hs) (_ & Hfc & Hc)].
  pose proof (real_sin_enclosed k Hk) as Hes.
  pose proof (real_cos_enclosed k Hk) as Hec.
  assert (E : k = 0 \/ k = 1 \/ k = 2 \/ k = 3) by lia.
  split; (split; [assumption|]).
  - apply (near_decimal (sin (IZR k)) (sin_lo k) (sin_hi k)); try assumption;
      destruct E as [-> | [-> | [-> | ->]]]; unfold Qle; vm_compute; discriminate.
  - apply (near_decimal (cos (IZR k)) (cos_lo k) (cos_hi k)); try assumption;
      destruct E as [-> | [-> | [-> | ->]]]; unfold Qle; vm_compute; discriminate.
Qed.

(** The table is accurate. *)
Lemma within_of_enclosure (x : R) (lo hi : Q) (v : double) :
  (Q2R lo <= x <= Q2R hi)%R ->
  (hi - (9 # 1000) <= F2Q v)%Q -> (F2Q v <= lo + (9 # 1000))%Q ->
  (Rabs (F2R v - x) <= 9 / 1000)%R.
Proof.
  intros [Hlo Hhi] Hvl Hvh. unfold F2R.
  apply Qle_Rle in Hvl, Hvh.
  rewrite Q2R_minus in Hvl. rewrite Q2R_plus in Hvh. rewrite Q2R_9_1000 in Hvl, Hvh.
  apply Rabs_le. split; Lra.lra.
Qed.

Lemma table_accurate : libm_accurate table_sin table_cos.
Proof.
  intros k Hk.
  pose proof (real_sin_enclosed k Hk) as Hes.
  pose proof (real_cos_enclosed k Hk) as Hec.
  assert (E : k = 0 \/ k = 1 \/ k = 2 \/ k = 3) by lia.
  split; (split; [|split]).
  - destruct E as [-> | [-> | [-> | ->]]]; reflexivity.
  - destruct E as [-> | [-> | [-> | ->]]]; reflexivity.
  - apply (within_of_enclosure _ (sin_lo k) (sin_hi k)); try assumption;
      destruct E as [-> | [-> | [-> | ->]]]; unfold Qle; vm_compute; discriminate.
  - destruct E as [-> | [-> | [-> | ->]]]; reflexivity.
  - destruct E as [-> | [-> | [-> | ->]]]; reflexivity.
  - apply (within_of_enclosure _ (cos_lo k) (cos_hi k)); try assumption;
      destruct E as [-> | [-> | [-> | ->]]]; unfold Qle; vm_compute; discriminate.
Qed.

(** A valid double has a canonical mantissa: 53 bits, or fewer at the least
    exponent. *)
Lemma valid_canonical (s : bool) (m : positive) (e : Z) :
  valid_binary prec emax (S754_finite s m e) = true ->
  e = Z.max (Zpos (digits2_pos m) + e - 53) (-1074).
Proof.
  cbn [valid_binary]. unfold bounded, canonical_mantissa. rewrite fexp_eq.
  intro H. apply andb_true_iff in H as [H _]. apply Z.eqb_eq in H. lia.
Qed.

(** A valid double whose magnitude lies in the binade of exponent [ed] has
    exponent [ed]. *)
Lemma same_binade_exponent (s : bool) (m : positive) (e ed : Z) :
  valid_binary prec emax (S754_finite s m e) = true ->
  -1074 <= ed ->
  (dy (2 ^ 52) ed <= dy (Zpos m) e)%Q -> (dy (Zpos m) e < dy (2 ^ 53) ed)%Q ->
  e = ed.
Proof.
  intros Hv Hed Hlo Hhi. apply valid_canonical in Hv.
  pose proof (digits2_pos_bounds m) as [Hdlo Hdhi].
  set (d := Zpos (digits2_pos m)) in *.
  assert (Hd : 1 <= d) by (unfold d; lia).
  set (u := Z.min e ed).
  rewrite (dy_shift _ ed u), (dy_shift _ e u) in Hlo by lia.
  rewrite (dy_shift _ ed u), (dy_shift _ e u) in Hhi by lia.
  apply dy_le in Hlo. apply dy_lt in Hhi.
  destruct (Z.lt_trichotomy e ed) as [Hlt|[Heq|Hgt]]; [exfalso|exact Heq|exfalso].
  - replace (e - u) with 0 in * by lia. change (2 ^ 0) with 1 in *.
    assert (2 * 1 <= 2 ^ (ed - u)).
    { change (2 * 1) with (2 ^ 1). apply pow2_le. lia. }
    assert (2 ^ 53 <= Zpos m) by (change (2 ^ 53) with (2 ^ 52 * 2); nia).
    assert (53 < d) by (apply pow2_lt_inv; lia).
    lia.
  - replace (ed - u) with 0 in * by lia. change (2 ^ 0) with 1 in *.
    assert (2 * 1 <= 2 ^ (e - u)).
    { change (2 * 1) with (2 ^ 1). apply pow2_le. lia. }
    assert (Zpos m < 2 ^ 52) by (change (2 ^ 53) with (2 ^ 52 * 2) in Hhi; nia).
    assert (d - 1 < 52) by (apply pow2_lt_inv; lia).
    lia.
Qed.

(** Within one unit in the last place of a normal double that is not the
    least of its binade there is no other double. *)
Lemma unique_within_ulp (sd : bool) (md : positive) (ed : Z) (v : double) :
  -1074 <= ed -> 2 ^ 52 < Zpos md < 2 ^ 53 ->
  valid_binary prec emax v = true -> is_finite v = true ->
  (F2Q (S754_finite sd md ed) - dy 1 ed < F2Q v)%Q ->
  (F2Q v < F2Q (S754_finite sd md ed) + dy 1 ed)%Q ->
  v = S754_finite sd md ed.
Proof.
  intros Hed Hmd Hv Hf Hlo Hhi. cbn [F2Q] in Hlo, Hhi.
  assert (Em : forall a, (dy a ed - dy 1 ed == dy (a - 1) ed)%Q).
  { intro a.
    assert (E : (dy a ed == dy (a - 1) ed + dy 1 ed)%Q).
    { rewrite dy_plus. replace (a - 1 + 1) with a by lia. reflexivity. }
    rewrite E. ring. }
  rewrite Em in Hlo. rewrite dy_plus in Hhi.
  destruct v as [s|s| |s m e]; try discriminate.
  - (* a zero is more than one unit away *)
    exfalso. cbn [F2Q] in Hlo, Hhi.
    assert (E0 : (0 == dy 0 ed)%Q) by (unfold dy; change (inject_Z 0) with 0%Q; ring).
    rewrite E0 in Hlo, Hhi. apply dy_lt in Hlo, Hhi.
    destruct sd; cbn [cond_Zopp] in *; lia.
  - cbn [F2Q] in Hlo, Hhi.
    (* same sign *)
    assert (Hs : s = sd).
    { set (u := Z.min e ed).
      rewrite (dy_shift _ ed u), (dy_shift _ e u) in Hlo by lia.
      rewrite (dy_shift _ ed u), (dy_shift _ e u) in Hhi by lia.
      apply dy_lt in Hlo, Hhi.
      pose proof (pow2_pos (e - u) ltac:(lia)). pose proof (pow2_pos (ed - u) ltac:(lia)).
      destruct s, sd; cbn [cond_Zopp] in *; try reflexivity; exfalso; nia. }
    subst s.
    (* same binade *)
    assert (He : e = ed).
    { apply (same_binade_exponent sd m e ed Hv Hed).
      - set (u := Z.min e ed).
        rewrite (dy_shift _ ed u), (dy_shift _ e u) in Hlo by lia.
        rewrite (dy_shift _ ed u), (dy_shift _ e u) in Hhi by lia.
        rewrite (dy_shift _ ed u), (dy_shift _ e u) by lia.
        apply dy_lt in Hlo, Hhi. apply dy_le.
        pose proof (pow2_pos (e - u) ltac:(lia)). pose proof (pow2_pos (ed - u) ltac:(lia)).
        destruct sd; cbn [cond_Zopp] in *; nia.
      - set (u := Z.min e ed).
        rewrite (dy_shift _ ed u), (dy_shift _ e u) in Hlo by lia.
        rewrite (dy_shift _ ed u), (dy_shift _ e u) in Hhi by lia.
        rewrite (dy_shift _ ed u), (dy_shift _ e u) by lia.
        apply dy_lt in Hlo, Hhi. apply dy_lt.
        pose proof (pow2_pos (e - u) ltac:(lia)). pose proof (pow2_pos (ed - u) ltac:(lia)).
        destruct sd; cbn [cond_Zopp] in *; nia. }
    subst e. apply dy_lt in Hlo, Hhi.
    assert (Zpos m = Zpos md) by (destruct sd; cbn [cond_Zopp] in *; lia).
    congruence.
Qed.

Lemma Q2R_0 : Q2R 0 = 0%R.
Proof. change 0%Q with (inject_Z 0). apply Q2R_inject_Z. Qed.

Lemma Q2R_1 : Q2R 1 = 1%R.
Proof. change 1%Q with (inject_Z 1). apply Q2R_inject_Z. Qed.

(** A double nearest to a real that is closer than half a unit in the last
    place to a normal double [d] is [d]. *)
Lemma nearest_is (x : R) (lo hi : Q) (sd : bool) (md : positive) (ed : Z) (v : double) :
  (Q2R lo <= x <= Q2R hi)%R ->
  valid_binary prec emax (S754_finite sd md ed) = true ->
  -1074 <= ed -> 2 ^ 52 < Zpos md < 2 ^ 53 ->
  (F2Q (S754_finite sd md ed) - dy 1 (ed - 1) < lo)%Q ->
  (hi < F2Q (S754_finite sd md ed) + dy 1 (ed - 1))%Q ->
  nearest_double x v ->
  v = S754_finite sd md ed.
Proof.
  intros [Hlo Hhi] Hvd Hed Hmd Hdl Hdh (Hv & Hf & Hnear).
  set (d := S754_finite sd md ed) in *.
  specialize (Hnear d Hvd eq_refl).
  apply Qlt_Rlt in Hdl, Hdh. rewrite Q2R_minus in Hdl. rewrite Q2R_plus in Hdh.
  assert (Hulp : Q2R (dy 1 ed) = (2 * Q2R (dy 1 (ed - 1)))%R).
  { rewrite <- (Q2R_inject_Z 2), <- Q2R_mult. apply Qeq_eqR.
    rewrite (dy_shift 1 ed (ed - 1)) by lia.
    replace (ed - (ed - 1)) with 1 by lia. change (1 * 2 ^ 1) with 2.
    unfold dy. ring. }
  assert (Hd : (Rabs (F2R d - x) < Q2R (dy 1 (ed - 1)))%R).
  { unfold F2R. apply Rabs_def1; Lra.lra. }
  assert (Hvx := Rle_lt_trans _ _ _ Hnear Hd).
  apply Rabs_def2 in Hd, Hvx. unfold F2R in Hd, Hvx.
  apply (unique_within_ulp sd md ed v Hed Hmd Hv Hf); fold d;
    apply Rlt_Qlt; rewrite ?Q2R_minus, ?Q2R_plus, Hulp; Lra.lra.
Qed.

Lemma nearest_zero (v : double) :
  nearest_double 0%R v -> v = S754_zero false \/ v = S754_zero true.
Proof.
  intros (Hv & Hf & Hnear).
  specialize (Hnear zero eq_refl eq_refl). unfold F2R in Hnear.
  cbn [F2Q zero] in Hnear. rewrite Q2R_0 in Hnear.
  replace (0 - 0)%R with 0%R in Hnear by Lra.lra.
  rewrite Rabs_R0, Rminus_0_r in Hnear.
  assert (E : Q2R (F2Q v) = 0%R).
  { pose proof (Rabs_pos (Q2R (F2Q v))). unfold Rabs in *.
    destruct (Rcase_abs (Q2R (F2Q v))); Lra.lra. }
  destruct v as [[|]| | |s m e]; try discriminate; auto.
  exfalso. rewrite <- Q2R_0 in E. apply eqR_Qeq in E. cbn [F2Q] in E.
  assert (E0 : (0 == dy 0 e)%Q) by (unfold dy; change (inject_Z 0) with 0%Q; ring).
  rewrite E0 in E.
  assert (H1 : (dy (cond_Zopp s (Zpos m)) e <= dy 0 e)%Q) by (rewrite E; apply Qle_refl).
  assert (H2 : (dy 0 e <= dy (cond_Zopp s (Zpos m)) e)%Q) by (rewrite E; apply Qle_refl).
  apply dy_le in H1, H2. destruct s; cbn [cond_Zopp] in *; lia.
Qed.

Lemma nearest_one (v : double) : nearest_double 1%R v -> v = one.
Proof.
  intros (Hv & Hf & Hnear).
  specialize (Hnear one eq_refl eq_refl). unfold F2R in Hnear.
  assert (E1 : (F2Q one == 1)%Q) by reflexivity.
  rewrite (Qeq_eqR _ _ E1), Q2R_1 in Hnear.
  replace (1 - 1)%R with 0%R in Hnear by Lra.lra. rewrite Rabs_R0 in Hnear.
  assert (E : Q2R (F2Q v) = 1%R).
  { pose proof (Rabs_pos (Q2R (F2Q v) - 1)). unfold Rabs in *.
    destruct (Rcase_abs (Q2R (F2Q v) - 1)); Lra.lra. }
  rewrite <- Q2R_1 in E. apply eqR_Qeq in E. rewrite <- E1 in E.
  destruct v as [s|s| |s m e]; try discriminate.
  cbn [F2Q one] in E. cbn [cond_Zopp] in E.
  { assert (Hle : (dy (cond_Zopp s (Zpos m)) e <= dy 4503599627370496 (-52))%Q)
      by (rewrite E; apply Qle_refl).
    assert (Hge : (dy 4503599627370496 (-52) <= dy (cond_Zopp s (Zpos m)) e)%Q)
      by (rewrite E; apply Qle_refl).
    assert (Hs : s = false).
    { set (u := Z.min e (-52)).
      rewrite (dy_shift _ (-52) u), (dy_shift _ e u) in Hge by lia.
      apply dy_le in Hge.
      pose proof (pow2_pos (e - u) ltac:(lia)). pose proof (pow2_pos (-52 - u) ltac:(lia)).
      destruct s; cbn [cond_Zopp] in *; [exfalso; nia|reflexivity]. }
    subst s. cbn [cond_Zopp] in *.
    assert (He : e = -52).
    { apply (same_binade_exponent false m e (-52) Hv); [lia|exact Hge|].
      eapply Qle_lt_trans; [exact Hle|]. apply dy_lt. lia. }
    subst e. apply dy_le in Hle, Hge.
    assert (Zpos m = 4503599627370496) by lia.
    unfold one. congruence. }
Qed.

(** A normal double within half a unit in the last place of a real is a
    nearest double of it. *)
Lemma is_nearest (x : R) (lo hi : Q) (sd : bool) (md : positive) (ed : Z) :
  (Q2R lo <= x <= Q2R hi)%R ->
  valid_binary prec emax (S754_finite sd md ed) = true ->
  -1074 <= ed -> 2 ^ 52 < Zpos md < 2 ^ 53 ->
  (F2Q (S754_finite sd md ed) - dy 1 (ed - 1) < lo)%Q ->
  (hi < F2Q (S754_finite sd md ed) + dy 1 (ed - 1))%Q ->
  nearest_double x (S754_finite sd md ed).
Proof.
  intros [Hlo Hhi] Hvd Hed Hmd Hdl Hdh.
  set (d := S754_finite sd md ed) in *.
  split; [exact Hvd|]. split; [reflexivity|]. intros w Hw Hfw.
  apply Qlt_Rlt in Hdl, Hdh. rewrite Q2R_minus in Hdl. rewrite Q2R_plus in Hdh.
  assert (Hulp : Q2R (dy 1 ed) = (2 * Q2R (dy 1 (ed - 1)))%R).
  { rewrite <- (Q2R_inject_Z 2), <- Q2R_mult. apply Qeq_eqR.
    rewrite (dy_shift 1 ed (ed - 1)) by lia.
    replace (ed - (ed - 1)) with 1 by lia. change (1 * 2 ^ 1) with 2.
    unfold dy. ring. }
  unfold F2R.
  destruct (Qlt_le_dec (F2Q d - dy 1 ed) (F2Q w)) as [Hl|Hl];
    [destruct (Qlt_le_dec (F2Q w) (F2Q d + dy 1 ed)) as [Hh|Hh]|].
  - rewrite (unique_within_ulp sd md ed w Hed Hmd Hw Hfw Hl Hh). apply Rle_refl.
  - apply Qle_Rle in Hh. rewrite Q2R_plus, Hulp in Hh.
    unfold Rabs. destruct (Rcase_abs _), (Rcase_abs _); Lra.lra.
  - apply Qle_Rle in Hl. rewrite Q2R_minus, Hulp in Hl.
    unfold Rabs. destruct (Rcase_abs _), (Rcase_abs _); Lra.lra.
Qed.

Lemma is_nearest_exact (x : R) (d : double) :
  valid_binary prec emax d = true -> is_finite d = true -> F2R d = x ->
  nearest_double x d.
Proof.
  intros Hv Hf <-. split; [exact Hv|]. split; [exact Hf|]. intros w _ _.
  replace (F2R d - F2R d)%R with 0%R by Lra.lra. rewrite Rabs_R0. apply Rabs_pos.
Qed.

(** The table holds the correctly rounded values. *)
Lemma table_correctly_rounded : libm_correctly_rounded table_sin table_cos.
Proof.
  intros k Hk.
  pose proof (real_sin_enclosed k Hk) as Hes.
  pose proof (real_cos_enclosed k Hk) as Hec.
  assert (E : k = 0 \/ k = 1 \/ k = 2 \/ k = 3) by lia.
  destruct E as [-> | [-> | [-> | ->]]].
  - split.
    + apply is_nearest_exact; try reflexivity.
      rewrite sin_0. unfold F2R. apply Q2R_0.
    + apply is_nearest_exact; try reflexivity.
      rewrite cos_0. unfold F2R. rewrite <- Q2R_1. apply Qeq_eqR. reflexivity.
  - split.
    + apply (is_nearest _ (sin_lo 1) (sin_hi 1)); try assumption; try reflexivity;
        try lia; unfold Qlt; vm_compute; reflexivity.
    + apply (is_nearest _ (cos_lo 1) (cos_hi 1)); try assumption; try reflexivity;
        try lia; unfold Qlt; vm_compute; reflexivity.
  - split.
    + apply (is_nearest _ (sin_lo 2) (sin_hi 2)); try assumption; try reflexivity;
        try lia; unfold Qlt; vm_compute; reflexivity.
    + apply (is_nearest _ (cos_lo 2) (cos_hi 2)); try assumption; try reflexivity;
        try lia; unfold Qlt; vm_compute; reflexivity.
  - split.
    + apply (is_nearest _ (sin_lo 3) (sin_hi 3)); try assumption; try reflexivity;
        try lia; unfold Qlt; vm_compute; reflexivity.
    + apply (is_nearest _ (cos_lo 3) (cos_hi 3)); try assumption; try reflexivity;
        try lia; unfold Qlt; vm_compute; reflexivity.
Qed.

(** A correctly rounding libm returns the values of the table, up to the
    sign of [sin(0.0)]. *)
Lemma correctly_rounded_values (sin_d cos_d : double -> double) :
  libm_correctly_rounded sin_d cos_d ->
  (forall k, 0 <= k < 4 ->
     sin_d (of_int k) = table_sin (of_int k) /\ cos_d (of_int k) = table_cos (of_int k))
  \/ (forall k, 0 <= k < 4 ->
        sin_d (of_int k) = table_sin_neg (of_int k)
        /\ cos_d (of_int k) = table_cos (of_int k)).
Proof.
  intro H.
  assert (Hpos : forall k, 1 <= k < 4 ->
            sin_d (of_int k) = sin_ref k /\ cos_d (of_int k) = cos_ref k).
  { intros k Hk. destruct (H k ltac:(lia)) as [Hs Hc].
    pose proof (real_sin_enclosed k ltac:(lia)) as Hes.
    pose proof (real_cos_enclosed k ltac:(lia)) as Hec.
    assert (E : k = 1 \/ k = 2 \/ k = 3) by lia.
    destruct E as [-> | [-> | ->]]; split; cbn [sin_ref cos_ref].
    - apply (nearest_is (sin 1) (sin_lo 1) (sin_hi 1)); try assumption; try reflexivity;
        try lia; unfold Qlt; vm_compute; reflexivity.
    - apply (nearest_is (cos 1) (cos_lo 1) (cos_hi 1)); try assumption; try reflexivity;
        try lia; unfold Qlt; vm_compute; reflexivity.
    - apply (nearest_is (sin 2) (sin_lo 2) (sin_hi 2)); try assumption; try reflexivity;
        try lia; unfold Qlt; vm_compute; reflexivity.
    - apply (nearest_is (cos 2) (cos_lo 2) (cos_hi 2)); try assumption; try reflexivity;
        try lia; unfold Qlt; vm_compute; reflexivity.
    - apply (nearest_is (sin 3) (sin_lo 3) (sin_hi 3)); try assumption; try reflexivity;
        try lia; unfold Qlt; vm_compute; reflexivity.
    - apply (nearest_is (cos 3) (cos_lo 3) (cos_hi 3)); try assumption; try reflexivity;
        try lia; unfold Qlt; vm_compute; reflexivity. }
  destruct (H 0 ltac:(lia)) as [Hs0 Hc0].
  rewrite sin_0 in Hs0. rewrite cos_0 in Hc0.
  apply nearest_one in Hc0. apply nearest_zero in Hs0.
  destruct Hs0 as [Hs0|Hs0]; [left|right]; intros k Hk;
    (assert (E : k = 0 \/ 1 <= k < 4) by lia; destruct E as [->|Hk1];
     [split; [exact Hs0|exact Hc0]|]);
    destruct (Hpos k Hk1) as [-> ->];
    (assert (E : k = 1 \/ k = 2 \/ k = 3) by lia;
     destruct E as [-> | [-> | ->]]; split; reflexivity).
Qed.

(* ------------------------------------------------------------------ *)
(** ** Valid doubles and their comparison                              *)
(* ------------------------------------------------------------------ *)

(** [valid_binary] on a finite float, spelled out. *)
Lemma valid_finite_iff (s : bool) (m : positive) (e : Z) :
  valid_binary prec emax (S754_finite s m e) = true
  <-> e = Z.max (Zpos (digits2_pos m) + e - 53) (-1074) /\ e <= 971.
Proof.
  cbn [valid_binary]. unfold bounded, canonical_mantissa. rewrite fexp_eq.
  change (emax - prec) with 971.
  rewrite andb_true_iff, Z.eqb_eq, Z.leb_le. lia.
Qed.

(** The number of binary digits, characterised by its bounds. *)
Lemma digits2_pos_unique (p : positive) (d : Z) :
  2 ^ (d - 1) <= Zpos p < 2 ^ d -> 1 <= d -> Zpos (digits2_pos p) = d.
Proof.
  intros [Hlo Hhi] Hd.
  pose proof (digits2_pos_bounds p) as [Hplo Hphi].
  set (d' := Zpos (digits2_pos p)) in *.
  assert (Hd' : 1 <= d') by (unfold d'; lia).
  assert (d - 1 < d') by (apply pow2_lt_inv; lia).
  assert (d' - 1 < d) by (apply pow2_lt_inv; lia).
  lia.
Qed.

(** A mantissa that is not shorter than the format requires rounds to a
    valid double. *)
Lemma binary_round_aux_valid (s : bool) (M : positive) (e : Z) :
  e <= Z.max (Zpos (digits2_pos M) + e - 53) (-1074) ->
  valid_binary prec emax (binary_round_aux prec emax s (Zpos M) e loc_Exact) = true.
Proof.
  intro Hal.
  destruct (binary_round_aux_spec s M e)
    as (k & m' & rem & mr & Hk & Hm' & Hrem & HM & Hgrid & Hek & Hrn & Hout).
  pose proof (digits2_pos_bounds M) as [Hdlo Hdhi].
  set (d := Zpos (digits2_pos M)) in *.
  assert (Hd : 1 <= d) by (unfold d; lia).
  assert (Hu : e + k = Z.max (d + e - 53) (-1074)) by lia.
  pose proof (pow2_pos k Hk) as Hpk.
  assert (Hmr : m' <= mr <= m' + 1) by (destruct Hrn as [[-> _]|[-> _]]; lia).
  unfold rounds_to in Hout.
  destruct (binary_round_aux prec emax s (Zpos M) e loc_Exact) as [s'|s'| |s' m2 e2];
    try reflexivity.
  destruct Hout as (_ & He2 & Hst). apply valid_finite_iff. split; [|exact He2].
  destruct Hst as [(Hm2 & -> & Hlt)|(Hc & Hm2 & ->)].
  - (* the rounded mantissa fits: 53 bits, or fewer at the least exponent *)
    pose proof (digits2_pos_bounds m2) as [H2lo H2hi].
    set (d2 := Zpos (digits2_pos m2)) in *.
    assert (Hd2 : 1 <= d2) by (unfold d2; lia).
    assert (d2 <= 53).
    { assert (d2 - 1 < 53) by (apply pow2_lt_inv; lia). lia. }
    destruct (Z.le_gt_cases (d + e - 53) (-1074)) as [Hsub|Hnorm]; [lia|].
    assert (Ek : k = d - 53) by lia.
    assert (2 ^ 52 <= m').
    { destruct (Z.le_gt_cases (2 ^ 52) m') as [H'|H']; [exact H'|exfalso].
      assert (Zpos M < 2 ^ (52 + k)) by (rewrite pow2_split by lia; nia).
      replace (52 + k) with (d - 1) in * by lia. lia. }
    assert (52 < d2) by (apply pow2_lt_inv; lia).
    lia.
  - rewrite (digits2_pos_unique m2 53) by (try rewrite Hm2; cbn; lia). lia.
Qed.

(** Digits of a shifted mantissa. *)
Lemma digits2_pos_shift (p q : positive) (j : Z) :
  0 <= j -> Zpos q = Zpos p * 2 ^ j ->
  Zpos (digits2_pos q) = Zpos (digits2_pos p) + j.
Proof.
  intros Hj Hq. pose proof (digits2_pos_bounds p) as [Hlo Hhi].
  pose proof (pow2_pos j Hj).
  apply digits2_pos_unique; [|lia].
  replace (Zpos (digits2_pos p) + j - 1) with (Zpos (digits2_pos p) - 1 + j) by lia.
  rewrite !pow2_split, Hq by lia. nia.
Qed.

Lemma binary_round_valid (s : bool) (M : positive) (e : Z) :
  valid_binary prec emax (binary_round prec emax s M e) = true.
Proof.
  unfold binary_round. rewrite fexp_eq.
  set (e' := Z.max (Zpos (digits2_pos M) + e - 53) (-1074)).
  destruct (Z.le_gt_cases e e') as [Hle|Hgt].
  - assert (E : shl_align M e e' = (M, e)).
    { unfold shl_align. destruct (e' - e) eqn:E; try lia; reflexivity. }
    rewrite E. apply binary_round_aux_valid. exact Hle.
  - destruct (shl_align_spec M e e' ltac:(lia)) as [E Hmz]. rewrite E.
    apply binary_round_aux_valid.
    rewrite (digits2_pos_shift M (fst (shl_align M e e')) (e - e')) by (lia || exact Hmz).
    unfold e'. lia.
Qed.

Lemma add_valid (x y : double) :
  valid_binary prec emax x = true -> valid_binary prec emax y = true ->
  valid_binary prec emax (add x y) = true.
Proof.
  intros Hx Hy. unfold add.
  destruct x as [sx|sx| |sx mx ex], y as [sy|sy| |sy my ey];
    try reflexivity; try assumption;
    try (destruct sx, sy; reflexivity).
  unfold SFadd.
  destruct (cond_Zopp sx (Zpos (fst (shl_align mx ex (Z.min ex ey))))
            + cond_Zopp sy (Zpos (fst (shl_align my ey (Z.min ex ey))))) as [|p|p];
    cbn [binary_normalize]; [reflexivity| |]; apply binary_round_valid.
Qed.

Lemma mul_valid (x y : double) :
  valid_binary prec emax x = true -> valid_binary prec emax y = true ->
  valid_binary prec emax (mul x y) = true.
Proof.
  intros Hx Hy. unfold mul.
  destruct x as [sx|sx| |sx mx ex], y as [sy|sy| |sy my ey]; try reflexivity.
  cbn [SFmul]. apply binary_round_aux_valid.
  apply valid_finite_iff in Hx, Hy. destruct Hx as [Hx _], Hy as [Hy _].
  pose proof (digits2_pos_bounds mx) as [Hxlo Hxhi].
  pose proof (digits2_pos_bounds my) as [Hylo Hyhi].
  pose proof (digits2_pos_bounds (mx * my)) as [Hplo Hphi].
  set (dx := Zpos (digits2_pos mx)) in *.
  set (dy' := Zpos (digits2_pos my)) in *.
  set (dp := Zpos (digits2_pos (mx * my))) in *.
  assert (1 <= dx) by (unfold dx; lia). assert (1 <= dy') by (unfold dy'; lia).
  assert (1 <= dp) by (unfold dp; lia).
  assert (Hdp : dx + dy' - 2 < dp).
  { apply pow2_lt_inv; try lia.
    replace (dx + dy' - 2) with (dx - 1 + (dy' - 1)) by lia.
    rewrite pow2_split by lia. rewrite Pos2Z.inj_mul in Hphi.
    pose proof (pow2_pos (dx - 1) ltac:(lia)). pose proof (pow2_pos (dy' - 1) ltac:(lia)).
    nia. }
  lia.
Qed.

(** On valid finite doubles the comparison of C agrees with the order of
    the values. *)
Lemma ltb_correct (x y : double) :
  valid_binary prec emax x = true -> valid_binary prec emax y = true ->
  is_finite x = true -> is_finite y = true ->
  (F2Q x < F2Q y)%Q -> ltb x y = true.
Proof.
  intros Hx Hy Hfx Hfy Hlt. unfold ltb, SFltb.
  assert (E0 : forall e, (0 == dy 0 e)%Q)
    by (intro e; unfold dy; change (inject_Z 0) with 0%Q; ring).
  destruct x as [sx|sx| |sx mx ex], y as [sy|sy| |sy my ey]; try discriminate;
    cbn [F2Q] in Hlt.
  - rewrite (E0 ey) in Hlt. apply dy_lt in Hlt.
    destruct sy; cbn [cond_Zopp] in Hlt; [lia|reflexivity].
  - rewrite (E0 ex) in Hlt. apply dy_lt in Hlt.
    destruct sx; cbn [cond_Zopp] in Hlt; [reflexivity|lia].
  - apply valid_finite_iff in Hx, Hy. destruct Hx as [Hx _], Hy as [Hy _].
    pose proof (digits2_pos_bounds mx) as [Hxlo Hxhi].
    pose proof (digits2_pos_bounds my) as [Hylo Hyhi].
    set (dx := Zpos (digits2_pos mx)) in *.
    set (dy' := Zpos (digits2_pos my)) in *.
    assert (1 <= dx) by (unfold dx; lia). assert (1 <= dy') by (unfold dy'; lia).
    assert (Hmx : Zpos mx < 2 ^ 53).
    { eapply Z.lt_le_trans; [exact Hxhi|]. apply pow2_le. lia. }
    assert (Hmy : Zpos my < 2 ^ 53).
    { eapply Z.lt_le_trans; [exact Hyhi|]. apply pow2_le. lia. }
    assert (Hnx : -1074 < ex -> 2 ^ 52 <= Zpos mx).
    { intro. replace dx with 53 in Hxlo by lia. exact Hxlo. }
    assert (Hny : -1074 < ey -> 2 ^ 52 <= Zpos my).
    { intro. replace dy' with 53 in Hylo by lia. exact Hylo. }
    set (u := Z.min ex ey).
    rewrite (dy_shift _ ex u), (dy_shift _ ey u) in Hlt by lia.
    apply dy_lt in Hlt.
    pose proof (pow2_pos (ex - u) ltac:(lia)) as Hpx.
    pose proof (pow2_pos (ey - u) ltac:(lia)) as Hpy.
    cbn [SFcompare].
    destruct (Z.compare_spec ex ey) as [Heq|Hlt'|Hgt'].
    + subst ey. replace (ex - u) with 0 in * by lia. change (2 ^ 0) with 1 in *.
      change (Pos.compare_cont Eq mx my) with (mx ?= my)%positive.
      destruct sx, sy; cbn [cond_Zopp] in Hlt; try reflexivity; try lia.
      * replace (mx ?= my)%positive with Gt; [reflexivity|].
        symmetry. apply Pos.compare_gt_iff. lia.
      * replace (mx ?= my)%positive with Lt; [reflexivity|].
        symmetry. apply Pos.compare_lt_iff. lia.
    + replace (ex - u) with 0 in * by lia. change (2 ^ 0) with 1 in *.
      assert (2 * 1 <= 2 ^ (ey - u)).
      { change (2 * 1) with (2 ^ 1). apply pow2_le. lia. }
      specialize (Hny ltac:(lia)).
      destruct sx, sy; cbn [cond_Zopp] in Hlt; try reflexivity; exfalso;
        change (2 ^ 53) with (2 * 2 ^ 52) in *; nia.
    + replace (ey - u) with 0 in * by lia. change (2 ^ 0) with 1 in *.
      assert (2 * 1 <= 2 ^ (ex - u)).
      { change (2 * 1) with (2 ^ 1). apply pow2_le. lia. }
      specialize (Hnx ltac:(lia)).
      destruct sx, sy; cbn [cond_Zopp] in Hlt; try reflexivity; exfalso;
        change (2 ^ 53) with (2 * 2 ^ 52) in *; nia.
Qed.

Lemma fold_left_invariant {A B : Type} (P : A -> Prop) (f : A -> B -> A) (l : list B) :
  (forall a b, In b l -> P a -> P (f a b)) ->
  forall a, P a -> P (fold_left f l a).
Proof.
  induction l as [|b l IH]; intros H a Ha; cbn [fold_left]; [exact Ha|].
  apply IH; [intros a' b' Hin; apply H; right; exact Hin|].
  apply H; [left; reflexivity|exact Ha].
Qed.

(** With a libm that returns valid doubles the sum is a valid double. *)
Lemma nested_sum_valid (sin cos : double -> double) (n : Z) :
  (forall k, 0 <= k < n ->
     valid_binary prec emax (sin (of_int k)) = true
     /\ valid_binary prec emax (cos (of_int k)) = true) ->
  valid_binary prec emax (nested_sum sin cos n) = true.
Proof.
  intro H. unfold nested_sum.
  apply (fold_left_invariant (fun a => valid_binary prec emax a = true));
    [|reflexivity].
  intros a [p q] Hin Ha. apply in_grid in Hin. cbn [fst snd].
  apply add_valid; [exact Ha|].
  apply mul_valid; [apply (H p), Hin|apply (H q), Hin].
Qed.

(* ------------------------------------------------------------------ *)
(** ** Dependence on the values of libm                                *)
(* ------------------------------------------------------------------ *)

Lemma fold_left_ext_in {A B : Type} (f g : A -> B -> A) (l : list B) :
  (forall a b, In b l -> f a b = g a b) ->
  forall a, fold_left f l a = fold_left g l a.
Proof.
  induction l as [|b l IH]; intros H a; cbn [fold_left]; [reflexivity|].
  rewrite H by apply in_eq.
  apply IH. intros a' b' Hin. apply H, in_cons, Hin.
Qed.

(** The sums only look at libm on the integers below [n]. *)
Lemma nested_sum_ext (sin cos sin' cos' : double -> double) (n : Z) :
  (forall k, 0 <= k < n ->
     sin (of_int k) = sin' (of_int k) /\ cos (of_int k) = cos' (of_int k)) ->
  nested_sum sin cos n = nested_sum sin' cos' n.
Proof.
  intro H. unfold nested_sum. apply fold_left_ext_in.
  intros acc [a b] Hin. apply in_grid in Hin. cbn [fst snd].
  now rewrite (proj1 (H a (proj1 Hin))), (proj2 (H b (proj2 Hin))).
Qed.

Lemma factored_sum_ext (sin cos sin' cos' : double -> double) (n : Z) :
  (forall k, 0 <= k < n ->
     sin (of_int k) = sin' (of_int k) /\ cos (of_int k) = cos' (of_int k)) ->
  factored_sum sin cos n = factored_sum sin' cos' n.
Proof.
  intro H. unfold factored_sum. f_equal; apply fold_left_ext_in;
    intros acc k Hin; apply in_zseq in Hin;
    destruct (H k) as [Hs Hc]; try lia; congruence.
Qed.

Lemma table_on_small_ints (k : Z) :
  0 <= k < 4 ->
  table_sin (of_int k) = sin_ref k /\ table_cos (of_int k) = cos_ref k.
Proof.
  intro Hk.
  assert (E : k = 0 \/ k = 1 \/ k = 2 \/ k = 3) by lia.
  destruct E as [-> | [-> | [-> | ->]]]; split; reflexivity.
Qed.

(** C7.  The value is not monotonic in [n]: for a libm whose [sin] and [cos]
    are within [9/1000] of the exact sine and cosine at 0, 1, 2, 3, the
    result for [m = 4] is smaller than the result for [n = 3], as real
    numbers and for the comparison [<] of doubles. *)
Theorem value_not_monotonic (sin cos : double -> double) :
  libm_accurate sin cos ->
  exists n m : Z, 0 <= n < m
    /\ forall fuel_n fuel_m : nat,
        (fuel_for n <= fuel_n)%nat -> (fuel_for m <= fuel_m)%nat ->
        exists r_n r_m : double,
          compute_loop sin cos fuel_n n = Some r_n
          /\ compute_loop sin cos fuel_m m = Some r_m
          /\ is_finite r_n = true /\ is_finite r_m = true
          /\ (F2R r_m < F2R r_n)%R
          /\ ltb r_m r_n = true.
Proof.
  intro Hacc. pose proof (accurate_near_decimals sin cos Hacc) as Hlibm.
  exists 3, 4. split; [lia|]. intros fuel3 fuel4 Hf3 Hf4.
  exists (nested_sum sin cos 3), (nested_sum sin cos 4).
  unfold compute_loop.
  rewrite !run_complete by (assumption || (unfold in_range, INT_MIN, INT_MAX; lia)).
  cbn [pc result]. split; [reflexivity|]. split; [reflexivity|].
  set (Is := fun k => ival_around (sin_dec k)).
  set (Ic := fun k => ival_around (cos_dec k)).
  assert (Hencl : forall n, n <= 4 -> forall k, 0 <= k < n ->
            contains 40 (Is k) (sin (of_int k)) /\ contains 40 (Ic k) (cos (of_int k))).
  { intros n Hn k Hk. destruct (Hlibm k ltac:(lia)) as [[Hfs Hs] [Hfc Hc]].
    split; apply ival_around_sound; assumption. }
  destruct (ival_nested_sum_sound 40 Is Ic sin cos 3
              (2040385717887, 2285532830434) ltac:(lia) (Hencl 3 ltac:(lia)))
    as [Hfin3 [Hlo3 _]]; [vm_compute; reflexivity|].
  destruct (ival_nested_sum_sound 40 Is Ic sin cos 4
              (65436335001, 491782963818) ltac:(lia) (Hencl 4 ltac:(lia)))
    as [Hfin4 [_ Hhi4]]; [vm_compute; reflexivity|].
  split; [exact Hfin3|]. split; [exact Hfin4|].
  cbn [fst snd] in Hlo3, Hhi4.
  assert (Hlt : (F2Q (nested_sum sin cos 4) < F2Q (nested_sum sin cos 3))%Q).
  { eapply Qle_lt_trans; [exact Hhi4|].
    eapply Qlt_le_trans; [|exact Hlo3].
    apply dy_lt. lia. }
  split; [apply Qlt_Rlt, Hlt|].
  assert (Hvalid : forall n, n <= 4 -> forall k, 0 <= k < n ->
            valid_binary prec emax (sin (of_int k)) = true
            /\ valid_binary prec emax (cos (of_int k)) = true).
  { intros n Hn k Hk. destruct (Hacc k ltac:(lia)) as [(Hvs & _) (Hvc & _)].
    split; assumption. }
  apply ltb_correct; try assumption;
    apply nested_sum_valid; apply Hvalid; lia.
Qed.

Lemma value_not_monotonic_witness :
  libm_accurate table_sin table_cos
  /\ exists n m : Z, 0 <= n < m
      /\ forall fuel_n fuel_m : nat,
          (fuel_for n <= fuel_n)%nat -> (fuel_for m <= fuel_m)%nat ->
          exists r_n r_m : double,
            compute_loop table_sin table_cos fuel_n n = Some r_n
            /\ compute_loop table_sin table_cos fuel_m m = Some r_m
            /\ is_finite r_n = true /\ is_finite r_m = true
            /\ (F2R r_m < F2R r_n)%R
            /\ ltb r_m r_n = true.
Proof.
  exact (conj table_accurate
           (value_not_monotonic table_sin table_cos table_accurate)).
Defined.

(** C10.  The nested accumulation is not the factored product: for a libm
    whose [sin] and [cos] are correctly rounded at 0, 1, 2, 3, the nested
    sum for [n = 4] is [4572439389416505 * 2^-54] (0x1.03e9c01902c39p-2)
    while (sum of [sin(i)]) * (sum of [cos(j)]) is
    [4572439389416507 * 2^-54] (0x1.03e9c01902c3bp-2). *)
Theorem nested_sum_differs_from_factored (sin cos : double -> double) :
  libm_correctly_rounded sin cos ->
  exists n : Z, 0 <= n
    /\ (forall fuel, (fuel_for n <= fuel)%nat ->
          compute_loop sin cos fuel n
          = Some (S754_finite false 4572439389416505 (-54)))
    /\ factored_sum sin cos n = S754_finite false 4572439389416507 (-54)
    /\ nested_sum sin cos n <> factored_sum sin cos n.
Proof.
  intro Hlibm. exists 4. split; [lia|].
  assert (Hn : nested_sum sin cos 4 = S754_finite false 4572439389416505 (-54)).
  { destruct (correctly_rounded_values sin cos Hlibm) as [Hext|Hext].
    - rewrite (nested_sum_ext sin cos table_sin table_cos 4 Hext).
      vm_compute. reflexivity.
    - rewrite (nested_sum_ext sin cos table_sin_neg table_cos 4 Hext).
      vm_compute. reflexivity. }
  assert (Hf : factored_sum sin cos 4 = S754_finite false 4572439389416507 (-54)).
  { destruct (correctly_rounded_values sin cos Hlibm) as [Hext|Hext].
    - rewrite (factored_sum_ext sin cos table_sin table_cos 4 Hext).
      vm_compute. reflexivity.
    - rewrite (factored_sum_ext sin cos table_sin_neg table_cos 4 Hext).
      vm_compute. reflexivity. }
  split; [|split; [exact Hf|rewrite Hn, Hf; discriminate]].
  intros fuel Hfuel. unfold compute_loop.
  rewrite run_complete by (assumption || (unfold in_range, INT_MIN, INT_MAX; lia)).
  cbn [pc result]. now rewrite Hn.
Qed.

Lemma nested_sum_differs_from_factored_witness :
  libm_correctly_rounded table_sin table_cos
  /\ exists n : Z, 0 <= n
      /\ (forall fuel, (fuel_for n <= fuel)%nat ->
            compute_loop table_sin table_cos fuel n
            = Some (S754_finite false 4572439389416505 (-54)))
      /\ factored_sum table_sin table_cos n = S754_finite false 4572439389416507 (-54)
      /\ nested_sum table_sin table_cos n <> factored_sum table_sin table_cos n.
Proof.
  exact (conj table_correctly_rounded
           (nested_sum_differs_from_factored table_sin table_cos
              table_correctly_rounded)).
Defined.

(* ------------------------------------------------------------------ *)
(** ** Further properties of the executions                            *)
(* ------------------------------------------------------------------ *)

Section Progress.

Variable sin cos : double -> double.
Variable n : Z.

Local Abbreviation stepn := (step sin cos n).
Local Abbreviation runn := (run sin cos n).
Local Abbreviation acc1 := (accumulate sin cos).

Lemma run_S (k : nat) (c : config) : runn (S k) c = stepn (runn k c).
Proof.
  replace (S k) with (k + 1)%nat by lia. now rewrite run_add.
Qed.

(** Before [fuel_for n] transitions are made the execution stands at a loop
    test, and its counters tell how many transitions it has made. *)
Lemma run_transitions_made (k : nat) :
  n <= INT_MAX -> (k < fuel_for n)%nat ->
  (pc (runn k init) = L13 \/ pc (runn k init) = L14)
  /\ transitions_made n (runn k init) = Z.of_nat k.
Proof.
  intros Hmax. induction k as [|k IH]; intro Hk.
  - split; [left; reflexivity|reflexivity].
  - destruct IH as [Hpc Hm]; [lia|].
    pose proof (run_counters_ok sin cos n k init Hmax (init_counters_ok n))
      as (_ & Hi & Hj & Hin).
    assert (Hn : 0 < n /\ Z.of_nat k < n * (n + 2)).
    { unfold fuel_for in Hk. destruct (Z.leb_spec n 0); lia. }
    destruct Hn as [Hn Hlt]. rewrite Z.max_r in Hi, Hj by lia.
    rewrite run_S. unfold transitions_made in *. unfold step.
    destruct Hpc as [Hpc|Hpc]; rewrite Hpc in *.
    + assert (Hia : i (runn k init) < n) by nia.
      replace (i (runn k init) <? n) with true by (symmetry; apply Z.ltb_lt; lia).
      cbn [pc i j]. split; [right; reflexivity|lia].
    + specialize (Hin eq_refl). unfold incr.
      destruct (Z.ltb_spec (j (runn k init)) n) as [Hjn|Hjn].
      * replace (j (runn k init) <? INT_MAX) with true
          by (symmetry; apply Z.ltb_lt; lia).
        cbn [pc i j]. split; [right; reflexivity|lia].
      * replace (i (runn k init) <? INT_MAX) with true
          by (symmetry; apply Z.ltb_lt; lia).
        cbn [pc i j]. split; [left; reflexivity|lia].
Qed.

(** Line 15 is the only place that writes [result], and it appends to the
    trace. *)
Lemma step_prefix_sum (c : config) :
  result c = fold_left acc1 (visited c) zero ->
  result (stepn c) = fold_left acc1 (visited (stepn c)) zero.
Proof.
  intro H. unfold step.
  destruct (pc c); try exact H.
  - destruct (i c <? n); exact H.
  - destruct (j c <? n).
    + destruct (incr (j c)); cbn [result visited];
        rewrite fold_left_app, <- H; reflexivity.
    + destruct (incr (i c)); exact H.
Qed.

Lemma run_prefix_sum (k : nat) :
  result (runn k init) = fold_left acc1 (visited (runn k init)) zero.
Proof.
  induction k as [|k IH]; [reflexivity|].
  rewrite run_S. now apply step_prefix_sum.
Qed.

Lemma step_visited_grows (c : config) :
  exists l, visited (stepn c) = visited c ++ l.
Proof.
  unfold step.
  destruct (pc c); try (exists []; now rewrite app_nil_r).
  - destruct (i c <? n); exists []; now rewrite app_nil_r.
  - destruct (j c <? n).
    + exists [(i c, j c)]. destruct (incr (j c)); reflexivity.
    + exists []. rewrite app_nil_r. destruct (incr (i c)); reflexivity.
Qed.

Lemma run_visited_grows (k : nat) :
  forall c, exists l, visited (runn k c) = visited c ++ l.
Proof.
  induction k as [|k IH]; intro c.
  - exists []. now rewrite app_nil_r.
  - cbn [run]. destruct (IH (stepn c)) as [l Hl].
    destruct (step_visited_grows c) as [l' Hl'].
    exists (l' ++ l). now rewrite Hl, Hl', app_assoc.
Qed.

End Progress.

(** X1.  The cost of the loop nest is exactly quadratic.  For every [n] an
    [int] can hold, the execution reaches line 19 after exactly
    [max(0,n) * (max(0,n) + 2) + 1] loop tests and not before: with fewer
    transitions no value is produced, with that many or more the execution
    stands at line 19 with the nested sum in [result], and line 15 has then
    been executed exactly [max(0,n)^2] times. *)
Theorem loop_cost_exact (sin cos : double -> double) (n : Z) :
  in_range n ->
  (forall fuel, (fuel < fuel_for n)%nat -> compute_loop sin cos fuel n = None)
  /\ (forall fuel, (fuel_for n <= fuel)%nat ->
        pc (run sin cos n fuel init) = L19
        /\ compute_loop sin cos fuel n = Some (nested_sum sin cos n)
        /\ Z.of_nat (length (visited (run sin cos n fuel init)))
           = Z.max 0 n * Z.max 0 n)
  /\ Z.of_nat (fuel_for n) = Z.max 0 n * (Z.max 0 n + 2) + 1.
Proof.
  intro Hn. split; [|split].
  - intros fuel Hfuel. unfold compute_loop.
    destruct (run_transitions_made sin cos n fuel (proj2 Hn) Hfuel) as [[H|H] _];
      rewrite H; reflexivity.
  - intros fuel Hfuel. unfold compute_loop. rewrite run_complete by assumption.
    cbn [pc result visited]. split; [reflexivity|split; [reflexivity|]].
    unfold grid. rewrite length_prod, length_zseq. lia.
  - unfold fuel_for. destruct (Z.leb_spec n 0); lia.
Qed.

Lemma loop_cost_exact_witness :
  in_range 3
  /\ compute_loop table_sin table_cos 15 3 = None
  /\ (pc (run table_sin table_cos 3 16 init) = L19
      /\ compute_loop table_sin table_cos 16 3 = Some (nested_sum table_sin table_cos 3)
      /\ Z.of_nat (length (visited (run table_sin table_cos 3 16 init))) = 9)
  /\ fuel_for 3 = 16%nat.
Proof.
  assert (Hn : in_range 3) by (unfold in_range, INT_MIN, INT_MAX; lia).
  pose proof (loop_cost_exact table_sin table_cos 3 Hn) as (H1 & H2 & H3).
  refine (conj Hn (conj (H1 15%nat _) (conj (H2 16%nat _) _))).
  - vm_compute. lia.
  - vm_compute. lia.
  - reflexivity.
Defined.

(** X2.  Every partial result is a prefix sum of one and the same series:
    at every program point [result] is the sum, accumulated from [0.0] in
    double precision, of the terms at the pairs visited so far, and these
    pairs are an initial segment of the grid in [i]-major order. *)
Theorem partial_results_are_prefix_sums (sin cos : double -> double) (n : Z) :
  in_range n ->
  forall fuel,
    let c := run sin cos n fuel init in
    result c = fold_left (accumulate sin cos) (visited c) zero
    /\ exists rest, grid n = visited c ++ rest.
Proof.
  intros Hn fuel c. split; [apply run_prefix_sum|].
  destruct (run_visited_grows sin cos n (fuel_for n) c) as [l Hl].
  exists l. rewrite <- Hl. unfold c. rewrite <- run_add.
  rewrite run_complete by (trivial; lia). reflexivity.
Qed.

Lemma partial_results_are_prefix_sums_witness :
  in_range 2
  /\ result (run table_sin table_cos 2 6 init)
     = fold_left (accumulate table_sin table_cos) [(0, 0); (0, 1); (1, 0)] zero
  /\ exists rest, grid 2 = [(0, 0); (0, 1); (1, 0)] ++ rest.
Proof.
  assert (Hn : in_range 2) by (unfold in_range, INT_MIN, INT_MAX; lia).
  exact (conj Hn (partial_results_are_prefix_sums table_sin table_cos 2 Hn 6%nat)).
Defined.

(** X3.  The loop consults libm at the integers [0 <= k < n] and nowhere
    else: two libms that agree there drive the execution through the same
    configurations, transition by transition, and give the same value. *)
Theorem libm_consulted_below_n_only
  (sin cos sin' cos' : double -> double) (n : Z) :
  in_range n ->
  (forall k, 0 <= k < n ->
     sin (of_int k) = sin' (of_int k) /\ cos (of_int k) = cos' (of_int k)) ->
  forall fuel,
    run sin cos n fuel init = run sin' cos' n fuel init
    /\ compute_loop sin cos fuel n = compute_loop sin' cos' fuel n.
Proof.
  intros Hn Hagree.
  assert (H : forall fuel, run sin cos n fuel init = run sin' cos' n fuel init).
  { induction fuel as [|fuel IH]; [reflexivity|].
    rewrite !run_S, <- IH.
    pose proof (run_counters_ok sin cos n fuel init (proj2 Hn) (init_counters_ok n))
      as (_ & Hi & Hj & Hin).
    unfold step.
    destruct (pc (run sin cos n fuel init)); try reflexivity.
    specialize (Hin eq_refl).
    destruct (Z.ltb_spec (j (run sin cos n fuel init)) n) as [Hjn|Hjn];
      [|reflexivity].
    unfold accumulate, term. cbn [fst snd].
    destruct (Hagree (i (run sin cos n fuel init))) as [-> _]; [lia|].
    destruct (Hagree (j (run sin cos n fuel init))) as [_ ->]; [lia|].
    reflexivity. }
  intro fuel. split; [apply H|]. unfold compute_loop. now rewrite H.
Qed.

Lemma libm_consulted_below_n_only_witness :
  in_range 2
  /\ table_sin (of_int 2) <> partial_sin (of_int 2)
  /\ run table_sin table_cos 2 9 init = run partial_sin table_cos 2 9 init
  /\ compute_loop table_sin table_cos 9 2 = compute_loop partial_sin table_cos 9 2.
Proof.
  assert (Hn : in_range 2) by (unfold in_range, INT_MIN, INT_MAX; lia).
  assert (Ha : forall k, 0 <= k < 2 ->
            table_sin (of_int k) = partial_sin (of_int k)
            /\ table_cos (of_int k) = table_cos (of_int k)).
  { intros k Hk. assert (Hk' : k = 0 \/ k = 1) by lia.
    destruct Hk' as [-> | ->]; split; reflexivity. }
  refine (conj Hn (conj _
    (libm_consulted_below_n_only table_sin table_cos partial_sin table_cos 2 Hn Ha 9))).
  discriminate.
Defined.

(* ------------------------------------------------------------------ *)
(** ** The conversion of the counters                                  *)
(* ------------------------------------------------------------------ *)

(** Integers of at most 53 bits are converted without rounding. *)
Lemma of_int_53 (k : Z) :
  - 2 ^ 53 <= k <= 2 ^ 53 ->
  is_finite (of_int k) = true /\ (F2Q (of_int k) == inject_Z k)%Q.
Proof.
  intro Hk.
  assert (H : forall (s : bool) (p : positive),
             k = cond_Zopp s (Zpos p) ->
             is_finite (binary_round prec emax s p 0) = true
             /\ (F2Q (binary_round prec emax s p 0) == inject_Z k)%Q).
  { intros s p E.
    destruct (binary_round_encl s p 0 0 (-1074) k k) as [Hf Hu]; try lia.
    { replace (- 0 - -1074) with (0 - -1074) by lia. rewrite E.
      destruct s; cbn [cond_Zopp]; lia. }
    split; [apply (fin_above_is_finite (-1074)); exact Hf|].
    rewrite (F2Q_units (-1074)) by exact Hf.
    rewrite (inject_Z_units k (-1074)) by lia.
    replace (units (-1074) (binary_round prec emax s p 0)) with (k * 2 ^ (- -1074));
      [reflexivity|].
    replace (- 0 - -1074) with (- -1074) in Hu by lia. lia. }
  unfold of_int, binary_normalize. destruct k as [|p|p].
  - split; reflexivity.
  - apply (H false p). reflexivity.
  - apply (H true p). reflexivity.
Qed.

Lemma of_int_valid (k : Z) : valid_binary prec emax (of_int k) = true.
Proof.
  unfold of_int, binary_normalize. destruct k; [reflexivity| |];
    apply binary_round_valid.
Qed.

(** X5.  The conversion of a loop counter to [double] at [sin(i)] and
    [cos(j)] is exact: for every value an [int] can hold, the double passed
    to libm is finite, canonical, and stands for that very integer; so
    distinct counters are passed as distinct doubles. *)
Theorem of_int_exact (a b : Z) :
  in_range a -> in_range b ->
  is_finite (of_int a) = true
  /\ valid_binary prec emax (of_int a) = true
  /\ (F2Q (of_int a) == inject_Z a)%Q
  /\ (of_int a = of_int b -> a = b).
Proof.
  intros Ha Hb. unfold in_range, INT_MIN, INT_MAX in *.
  destruct (of_int_53 a) as [Hf Hv]; [lia|].
  destruct (of_int_53 b) as [_ Hv']; [lia|].
  repeat split; [exact Hf|apply of_int_valid|exact Hv|].
  intro E. rewrite E, Hv' in Hv.
  unfold Qeq in Hv. cbn in Hv. lia.
Qed.

Lemma of_int_exact_witness :
  in_range 2147483647 /\ in_range (-2147483648)
  /\ of_int 2147483647 = S754_finite false 9007199250546688 (-22)
  /\ (F2Q (of_int 2147483647) == inject_Z 2147483647)%Q.
Proof.
  assert (Ha : in_range 2147483647) by (unfold in_range, INT_MIN, INT_MAX; lia).
  assert (Hb : in_range (-2147483648)) by (unfold in_range, INT_MIN, INT_MAX; lia).
  refine (conj Ha (conj Hb (conj _
    (proj1 (proj2 (proj2 (of_int_exact 2147483647 (-2147483648) Ha Hb))))))).
  vm_compute. reflexivity.
Defined.

(* ------------------------------------------------------------------ *)
(** ** The accumulator beyond [2^53] terms                             *)
(* ------------------------------------------------------------------ *)

(** X6.  The accumulator saturates: with libm values of magnitude at most
    1, [result] never leaves [-2^53, 2^53], however large [n] is (for
    [n > 94906265] this is below [n^2], the number of terms). *)
Theorem accumulator_saturates (sin cos : double -> double) (n : Z) :
  in_range n -> libm_in_unit_range sin cos n ->
  forall fuel,
    is_finite (result (run sin cos n fuel init)) = true
    /\ (Qabs (F2Q (result (run sin cos n fuel init))) <= inject_Z (2 ^ 53))%Q.
Proof.
  intros Hn Hlibm fuel.
  destruct (run_accumulator_ok sin cos n (proj2 Hn) Hlibm fuel init
              (init_accumulator_ok n)) as (_ & _ & Hacc).
  apply (bounded_by_mono _ (2 ^ 53)) in Hacc; [|lia].
  destruct Hacc as [Hf [Hlo Hhi]]. split; [exact Hf|].
  apply Qabs_Qle_condition. rewrite <- inject_Z_opp. split; assumption.
Qed.

Lemma accumulator_saturates_witness :
  in_range 3 /\ libm_in_unit_range table_sin table_cos 3
  /\ is_finite (result (run table_sin table_cos 3 16 init)) = true
  /\ (Qabs (F2Q (result (run table_sin table_cos 3 16 init))) <= inject_Z (2 ^ 53))%Q.
Proof.
  assert (Hn : in_range 3) by (unfold in_range, INT_MIN, INT_MAX; lia).
  exact (conj Hn (conj (table_in_unit_range 3)
    (accumulator_saturates table_sin table_cos 3 Hn (table_in_unit_range 3) 16%nat))).
Defined.

(* ------------------------------------------------------------------ *)
(** ** Canonical doubles                                               *)
(* ------------------------------------------------------------------ *)

(** X7.  The accumulator is a canonical binary64 datum at every program
    point (a mantissa of at most 53 bits, normalised unless the exponent is
    the least one, and an exponent within the format), provided libm
    returns canonical doubles at the integers below [n]. *)
Theorem result_always_canonical (sin cos : double -> double) (n : Z) :
  in_range n ->
  (forall k, 0 <= k < n ->
     valid_binary prec emax (sin (of_int k)) = true
     /\ valid_binary prec emax (cos (of_int k)) = true) ->
  forall fuel, valid_binary prec emax (result (run sin cos n fuel init)) = true.
Proof.
  intros Hn Hlibm fuel.
  destruct (run_visited_grows sin cos n (fuel_for n) (run sin cos n fuel init))
    as [rest Hrest].
  rewrite <- run_add, run_complete in Hrest by (trivial; lia).
  cbn [visited] in Hrest.
  rewrite run_prefix_sum.
  apply fold_left_invariant; [|reflexivity].
  intros acc [a b] Hin Hacc. unfold accumulate, term. cbn [fst snd].
  assert (Hg : In (a, b) (grid n)) by (rewrite Hrest; apply in_or_app; now left).
  apply in_grid in Hg. destruct Hg as [Ha Hb].
  apply add_valid; [exact Hacc|].
  apply mul_valid; [apply (Hlibm a Ha)|apply (Hlibm b Hb)].
Qed.

Lemma table_canonical (x : double) :
  valid_binary prec emax (table_sin x) = true
  /\ valid_binary prec emax (table_cos x) = true.
Proof.
  unfold table_sin, table_cos. generalize (small_int x) as z. intro z.
  assert (E : z = 1 \/ z = 2 \/ z = 3 \/ (sin_ref z = zero /\ cos_ref z = one)).
  { destruct z as [|[[p|p|]|[p|p|]|]|p]; auto. }
  destruct E as [-> | [-> | [-> | [-> ->]]]]; split; reflexivity.
Qed.

Lemma result_always_canonical_witness :
  in_range 3
  /\ valid_binary prec emax (result (run table_sin table_cos 3 16 init)) = true.
Proof.
  assert (Hn : in_range 3) by (unfold in_range, INT_MIN, INT_MAX; lia).
  exact (conj Hn (result_always_canonical table_sin table_cos 3 Hn
                    (fun k _ => table_canonical (of_int k)) 16%nat)).
Defined.

(* ------------------------------------------------------------------ *)
(** ** The rounding error of the sum                                   *)
(* ------------------------------------------------------------------ *)

Lemma pow2Q_cancel (g : Z) : (2 ^ g * 2 ^ (- g) == 1)%Q.
Proof.
  rewrite <- Qpower_plus by discriminate. now rewrite Z.add_opp_diag_r.
Qed.

(** A rational number lies between two neighbouring multiples of [2^-g]. *)
Lemma floor_ceiling_encl (v : Q) (g : Z) :
  (dy (Qfloor (v * 2 ^ g)) (- g) <= v <= dy (Qceiling (v * 2 ^ g)) (- g))%Q
  /\ Qceiling (v * 2 ^ g) <= Qfloor (v * 2 ^ g) + 1.
Proof.
  pose proof (pow2Q_pos (- g)) as Hp. pose proof (pow2Q_cancel g) as Hc.
  assert (Hv : (v * 2 ^ g * 2 ^ (- g) == v)%Q) by (rewrite <- Qmult_assoc, Hc; ring).
  split; [split|].
  - unfold dy. rewrite <- Hv at 2.
    apply Qmult_le_compat_r; [apply Qfloor_le|now apply Qlt_le_weak].
  - unfold dy. rewrite <- Hv at 1.
    apply Qmult_le_compat_r; [apply Qle_ceiling|now apply Qlt_le_weak].
  - pose proof (Qlt_floor (v * 2 ^ g)) as H1.
    pose proof (Qceiling_lt (v * 2 ^ g)) as H2.
    assert (H : (inject_Z (Qceiling (v * 2 ^ g) - 1) < inject_Z (Qfloor (v * 2 ^ g) + 1))%Q)
      by (eapply Qlt_trans; eassumption).
    rewrite <- Zlt_Qlt in H. lia.
Qed.

(** A value of magnitude at most [2^t] has 53-bit neighbours among the
    multiples of [2^(t-53)]. *)
Lemma floor_ceiling_53 (v : Q) (t : Z) :
  0 <= t <= 53 -> (Qabs v <= inject_Z (2 ^ t))%Q ->
  - 2 ^ 53 <= Qfloor (v * 2 ^ (53 - t)) /\ Qceiling (v * 2 ^ (53 - t)) <= 2 ^ 53.
Proof.
  intros Ht Hv. apply Qabs_Qle_condition in Hv. destruct Hv as [Hlo Hhi].
  assert (Hp : (0 <= 2 ^ (53 - t))%Q) by (apply Qlt_le_weak, pow2Q_pos).
  assert (E : (inject_Z (2 ^ t) * 2 ^ (53 - t) == inject_Z (2 ^ 53))%Q).
  { rewrite <- (Zpower_Qpower 2 (53 - t)) by lia.
    rewrite <- inject_Z_mult, <- Z.pow_add_r by lia.
    now replace (t + (53 - t)) with 53 by lia. }
  split.
  - rewrite <- (Qfloor_Z (- 2 ^ 53)). apply Qfloor_resp_le.
    rewrite inject_Z_opp, <- E.
    setoid_replace (- (inject_Z (2 ^ t) * 2 ^ (53 - t)))%Q
      with (- inject_Z (2 ^ t) * 2 ^ (53 - t))%Q by ring.
    now apply Qmult_le_compat_r.
  - rewrite <- (Qceiling_Z (2 ^ 53)). apply Qceiling_resp_le.
    rewrite <- E. now apply Qmult_le_compat_r.
Qed.

(** From enclosures to an error bound: an operation that keeps its result
    between any two 53-bit multiples of [2^(t-53)] that enclose the exact
    value is off by at most [2^(t-53)]. *)
Lemma error_from_enclosure (v : Q) (r : double) (t : Z) :
  0 <= t <= 53 -> (Qabs v <= inject_Z (2 ^ t))%Q ->
  (forall A B, - 2 ^ 53 <= A -> B <= 2 ^ 53 ->
     (dy A (- (53 - t)) <= v <= dy B (- (53 - t)))%Q ->
     is_finite r = true /\ (dy A (- (53 - t)) <= F2Q r <= dy B (- (53 - t)))%Q) ->
  is_finite r = true /\ (Qabs (F2Q r - v) <= dy 1 (t - 53))%Q.
Proof.
  intros Ht Hv Hencl.
  destruct (floor_ceiling_encl v (53 - t)) as [Hin Hgap].
  destruct (floor_ceiling_53 v t Ht Hv) as [HA HB].
  destruct (Hencl _ _ HA HB Hin) as [Hf Hr].
  split; [exact Hf|].
  set (A := Qfloor (v * 2 ^ (53 - t))) in *.
  set (B := Qceiling (v * 2 ^ (53 - t))) in *.
  replace (t - 53) with (- (53 - t)) by lia.
  assert (Hd : (dy B (- (53 - t)) <= dy A (- (53 - t)) + dy 1 (- (53 - t)))%Q).
  { rewrite dy_plus. apply dy_le. lia. }
  apply Qabs_Qle_condition.
  destruct Hin as [Hin1 Hin2], Hr as [Hr1 Hr2].
  split; lra.
Qed.

(** One addition and one multiplication. *)
Lemma add_error (x y : double) (t : Z) :
  is_finite x = true -> is_finite y = true ->
  0 <= t <= 53 -> (Qabs (F2Q x + F2Q y) <= inject_Z (2 ^ t))%Q ->
  is_finite (add x y) = true
  /\ (Qabs (F2Q (add x y) - (F2Q x + F2Q y)) <= dy 1 (t - 53))%Q.
Proof.
  intros Hx Hy Ht Hv. apply error_from_enclosure; [exact Ht|exact Hv|].
  intros A B HA HB Hin. apply add_encl; try assumption. lia.
Qed.

Lemma mul_error (x y : double) (t : Z) :
  is_finite x = true -> is_finite y = true ->
  0 <= t <= 53 -> (Qabs (F2Q x * F2Q y) <= inject_Z (2 ^ t))%Q ->
  is_finite (mul x y) = true
  /\ (Qabs (F2Q (mul x y) - F2Q x * F2Q y) <= dy 1 (t - 53))%Q.
Proof.
  intros Hx Hy Ht Hv. apply error_from_enclosure; [exact Ht|exact Hv|].
  intros A B HA HB Hin. apply mul_encl; try assumption. lia.
Qed.

Lemma Qabs_mult_le_1 (x y : Q) :
  (inject_Z (- 1) <= x <= inject_Z 1)%Q -> (inject_Z (- 1) <= y <= inject_Z 1)%Q ->
  (Qabs (x * y) <= inject_Z (2 ^ 0))%Q.
Proof.
  change (inject_Z (- 1)) with (- (1))%Q. change (inject_Z 1) with 1%Q.
  change (inject_Z (2 ^ 0)) with 1%Q.
  intros Hx Hy. apply Qabs_Qle_condition. split; nra.
Qed.

Section RoundingError.

Variable sin cos : double -> double.
Variable n t : Z.
Hypothesis libm_range : libm_in_unit_range sin cos n.
Hypothesis t_range : 0 <= t <= 53.

(** The loop body without rounding. *)
Local Abbreviation exact1 :=
  (fun (acc : Q) (p : Z * Z) =>
     (acc + F2Q (sin (of_int (fst p))) * F2Q (cos (of_int (snd p))))%Q).

(** What one round of line 15 adds to the error: [2^-53] for the product,
    [2^(t-53)] for the sum. *)
Lemma error_per_term :
  (dy 1 (t - 53) + dy 1 (0 - 53) == dy (2 ^ t + 1) (- 53))%Q.
Proof.
  rewrite (dy_shift 1 (t - 53) (- 53)) by lia.
  change (0 - 53) with (- 53). rewrite dy_plus.
  replace (t - 53 - - 53) with t by lia. now rewrite Z.mul_1_l.
Qed.

Lemma fold_error (l : list (Z * Z)) :
  forall (acc : double) (S : Q) (c : Z),
    (forall p, In p l -> 0 <= fst p < n /\ 0 <= snd p < n) ->
    0 <= c -> c + Z.of_nat (length l) <= 2 ^ t ->
    bounded_by c acc ->
    (Qabs (F2Q acc - S) <= inject_Z c * dy (2 ^ t + 1) (- 53))%Q ->
    bounded_by (c + Z.of_nat (length l)) (fold_left (accumulate sin cos) l acc)
    /\ (Qabs (F2Q (fold_left (accumulate sin cos) l acc) - fold_left exact1 l S)
        <= inject_Z (c + Z.of_nat (length l)) * dy (2 ^ t + 1) (- 53))%Q.
Proof.
  induction l as [|[a b] l IH]; intros acc S c Hl Hc Hlen Hacc Herr.
  - cbn [fold_left length]. rewrite Z.add_0_r. split; assumption.
  - cbn [fold_left length] in *.
    replace (c + Z.of_nat (Datatypes.S (length l)))
      with ((c + 1) + Z.of_nat (length l)) in * by lia.
    destruct (Hl (a, b) (or_introl eq_refl)) as [Ha Hb]. cbn [fst snd] in Ha, Hb.
    assert (Hpow : 2 ^ t <= 2 ^ 53) by (apply Z.pow_le_mono_r; lia).
    destruct (libm_range a Ha) as [[Hsf Hs] _].
    destruct (libm_range b Hb) as [_ [Hcf Hcb]].
    (* the product *)
    destruct (mul_error (sin (of_int a)) (cos (of_int b)) 0 Hsf Hcf)
      as [_ Hm]; [lia|now apply Qabs_mult_le_1|].
    pose proof (term_bounded_by_1 sin cos n libm_range a b Ha Hb) as HT.
    (* the sum *)
    assert (Hacc' : bounded_by (c + 1) (accumulate sin cos acc (a, b))).
    { unfold accumulate. cbn [fst snd].
      rewrite <- (Z.min_l (c + 1) (2 ^ 53)) by lia.
      apply add_bounded_by; [lia| |exact HT].
      rewrite Z.min_l by lia. exact Hacc. }
    destruct Hacc as [Haf [Hlo Hhi]], HT as [HTf [HTlo HThi]].
    destruct (add_error acc (term sin cos a b) t Haf HTf t_range) as [_ Hadd].
    { apply Qabs_Qle_condition.
      assert (Hc1 : (inject_Z (c + 1) <= inject_Z (2 ^ t))%Q)
        by (rewrite <- Zle_Qle; lia).
      rewrite inject_Z_plus in Hc1. rewrite inject_Z_opp in Hlo, HTlo.
      change (inject_Z 1) with 1%Q in *. split; lra. }
    apply IH; try assumption; try lia.
    { intros p Hp. apply Hl. now right. }
    (* the three errors add up *)
    unfold accumulate at 1. cbn [fst snd]. fold (term sin cos a b).
    unfold term in Hm. fold (term sin cos a b) in Hm.
    fold (add acc (term sin cos a b)).
    pose proof error_per_term as Hd.
    rewrite inject_Z_plus. change (inject_Z 1) with 1%Q.
    apply Qabs_Qle_condition in Herr, Hm, Hadd. apply Qabs_Qle_condition.
    set (d := dy (2 ^ t + 1) (- 53)) in *.
    set (ea := dy 1 (t - 53)) in *. set (em := dy 1 (0 - 53)) in *.
    split; lra.
Qed.

End RoundingError.

(** Without rounding the double sum factors. *)
Lemma Qsum_shift (h : Z -> Q) (l : list Z) :
  forall a, (fold_left (fun acc k => acc + h k) l a
             == a + fold_left (fun acc k => acc + h k) l 0)%Q.
Proof.
  induction l as [|x l IH]; intro a; cbn [fold_left].
  - ring.
  - rewrite IH, (IH (0 + h x)%Q). ring.
Qed.

Lemma Qsum_row (f g : Z -> Q) (x : Z) (l : list Z) :
  forall a, (fold_left (fun acc p => acc + f (fst p) * g (snd p)) (map (pair x) l) a
             == a + f x * fold_left (fun acc k => acc + g k) l 0)%Q.
Proof.
  induction l as [|y l IH]; intro a; cbn [fold_left map].
  - ring.
  - rewrite IH, (Qsum_shift g l (0 + g y)%Q). cbn [fst snd]. ring.
Qed.

Lemma Qsum_prod (f g : Z -> Q) (l1 l2 : list Z) :
  forall a, (fold_left (fun acc p => acc + f (fst p) * g (snd p)) (list_prod l1 l2) a
             == a + fold_left (fun acc k => acc + f k) l1 0
                    * fold_left (fun acc k => acc + g k) l2 0)%Q.
Proof.
  induction l1 as [|x l1 IH]; intro a; cbn [list_prod fold_left].
  - ring.
  - rewrite fold_left_app, IH.
    change (map (fun y : Z => (x, y)) l2) with (map (pair x) l2).
    rewrite Qsum_row, (Qsum_shift f l1 (0 + f x)%Q). ring.
Qed.

Lemma exact_sum_factors (sin cos : double -> double) (n : Z) :
  (exact_sum sin cos n == exact_factored sin cos n)%Q.
Proof.
  unfold exact_sum, exact_factored, grid.
  rewrite (Qsum_prod (fun k => F2Q (sin (of_int k))) (fun k => F2Q (cos (of_int k)))).
  ring.
Qed.

(** X8.  How far rounding takes the result from the exact sum.  When libm's
    values on the integers below [n] are of magnitude at most 1 and
    [n^2 <= 2^t <= 2^53], the value returned differs from the exact sum of
    the products of libm's values, which is also the exact product of the
    sum of the sines and the sum of the cosines, by at most
    [n^2 * (2^t + 1) * 2^-53]. *)
Theorem rounding_error_bound (sin cos : double -> double) (n t : Z) :
  libm_in_unit_range sin cos n -> 0 <= t <= 53 -> n * n <= 2 ^ t ->
  (exact_sum sin cos n == exact_factored sin cos n)%Q
  /\ forall fuel, (fuel_for n <= fuel)%nat ->
       exists r, compute_loop sin cos fuel n = Some r
                 /\ is_finite r = true
                 /\ (Qabs (F2Q r - exact_factored sin cos n)
                     <= dy (n * n * (2 ^ t + 1)) (- 53))%Q.
Proof.
  intros Hlibm Ht Hn. split; [apply exact_sum_factors|].
  intros fuel Hfuel. exists (nested_sum sin cos n).
  assert (Hpow : 2 ^ t <= 2 ^ 53) by (apply Z.pow_le_mono_r; lia).
  assert (Hrange : in_range n).
  { unfold in_range, INT_MIN, INT_MAX. change (2 ^ 53) with 9007199254740992 in Hpow.
    nia. }
  unfold compute_loop. rewrite run_complete by assumption. cbn [pc result].
  split; [reflexivity|].
  rewrite <- exact_sum_factors.
  assert (Hlen : Z.of_nat (length (grid n)) = Z.max 0 n * Z.max 0 n).
  { unfold grid. rewrite length_prod, length_zseq. lia. }
  destruct (fold_error sin cos n t Hlibm Ht (grid n) zero 0%Q 0) as [Hb He].
  - intros [a b] Hp. now apply in_grid.
  - lia.
  - rewrite Hlen. nia.
  - apply bounded_by_zero. lia.
  - cbn. unfold Qle; cbn. lia.
  - change (fold_left (accumulate sin cos) (grid n) zero)
      with (nested_sum sin cos n) in Hb, He.
    fold (exact_sum sin cos n) in He.
    split; [apply Hb|].
    eapply Qle_trans; [exact He|].
    unfold dy. rewrite (inject_Z_mult (n * n)), Qmult_assoc.
    apply Qmult_le_compat_r; [|apply Qlt_le_weak, pow2Q_pos].
    apply Qmult_le_compat_r; [rewrite <- Zle_Qle; nia|].
    rewrite <- (Zle_Qle 0). lia.
Qed.

Lemma rounding_error_bound_witness :
  libm_in_unit_range table_sin table_cos 3 /\ 0 <= 4 <= 53 /\ 3 * 3 <= 2 ^ 4
  /\ exists r, compute_loop table_sin table_cos 16 3 = Some r
               /\ is_finite r = true
               /\ (Qabs (F2Q r - exact_factored table_sin table_cos 3)
                   <= dy (3 * 3 * (2 ^ 4 + 1)) (- 53))%Q.
Proof.
  assert (Ht : 0 <= 4 <= 53) by lia.
  assert (Hn : 3 * 3 <= 2 ^ 4) by (vm_compute; discriminate).
  refine (conj (table_in_unit_range 3) (conj Ht (conj Hn
    (proj2 (rounding_error_bound table_sin table_cos 3 4
              (table_in_unit_range 3) Ht Hn) 16%nat _)))).
  vm_compute. lia.
Defined.
